(** * The smart-contract execution core of DNA: context stack, NeoVM service
      driver and ONT ID key encoding

    A shallow embedding of
      - [smartcontract/smart_contract.go]  (the [SmartContract] context
        manager: context stack, gas, notifications, witness check),
      - [smartcontract/service/neovm/neovm_service.go]  (the driver loop
        [Invoke], [SystemCall], [getContract], [checkStackSize]),
      - [smartcontract/service/native/ontid/utils.go]  ([encodeID],
        [decodeID]).

    Go objects that are shared through pointers ([ContextRef], the engine
    of a service) are threaded explicitly; an [error] return value is a
    [result]; a loop that may run forever takes fuel. *)

From Stdlib Require Import Strings.Byte.
From stdpp Require Import base tactics option list strings gmap.

Open Scope nat_scope.

(* [Error] and [StackItem] are nested through [option] and [list]; no
   nested induction scheme is needed for them. *)
Set Warnings "-register-all".

(* ------------------------------------------------------------------ *)
(** ** Errors and results *)

(** Go [error] values.  [NewErr] is [errors.NewErr] / [errors.New],
    [NewDetailErr] wraps a cause with a message
    ([errors.NewDetailErr(err, ErrNoCode, msg)]), [Errorf] is [fmt.Errorf]
    with its text (numbers and byte strings it prints are left as their
    verbs) and the error it prints, if any.  [Panic] is
    not an [error] value: it stands for a Go run-time panic (index out of
    range, nil dereference), which unwinds the call. *)
Inductive Error : Type :=
| NewErr (msg : string)
| NewDetailErr (cause : Error) (msg : string)
| Errorf (format : string) (cause : option Error)
| Panic (msg : string).

(** The innermost error of a chain of [NewDetailErr] wrappers. *)
Fixpoint root_cause (e : Error) : Error :=
  match e with
  | NewDetailErr c _ => root_cause c
  | _ => e
  end.

(** A Go pair [(value, error)]. *)
Inductive result (A : Type) : Type :=
| Ok (a : A)
| Err (e : Error).
Arguments Ok {A} a.
Arguments Err {A} e.

Definition is_Ok {A} (r : result A) : bool :=
  match r with Ok _ => true | Err _ => false end.

#[global] Instance byte_eq_dec : EqDecision byte := Byte.byte_eq_dec.

(** [byte(n)] for an [int] n: the low eight bits. *)
Definition byte_of_int (n : nat) : byte :=
  default "000"%byte (Byte.of_nat (n mod 256)).

(** [int(b)] for a byte b. *)
Definition int_of_byte (b : byte) : nat := Byte.to_nat b.

(* ------------------------------------------------------------------ *)
(** ** package common *)

Module common.

Definition ADDR_LEN : nat := 20.

(** Modelled from the spec: [common.Address], "Address20, 20-byte contract
    or account identifier"; in Go [type Address [ADDR_LEN]byte].  A byte
    string: the values of the Go type are those of length [ADDR_LEN], and
    [==] on arrays is equality of the contents. *)
Definition Address : Type := list byte.

Definition wf_Address (a : Address) : Prop := length a = ADDR_LEN.

End common.

(* ------------------------------------------------------------------ *)
(** ** package vm/neovm: the data the service reads and writes

    The interpreter itself is not among the files this development covers.
    Its data are laid out here as the service uses them; the operations
    that do real work ([ExecuteCode], [StepInto], ...) are taken as
    parameters of the service further down. *)

Module vm.

(** Modelled from the spec: the stack items of package vm/neovm/types, the
    "tagged union with variants Integer, ByteString, Boolean, Array,
    Struct, Map, InteropObject".  [checkStackSize] asks whether the top
    item is an [*Array] or a [*Struct] and counts its elements. *)
Inductive StackItem : Type :=
| ByteArray (b : list byte)
| Boolean (b : bool)
| Integer (z : Z)
| Array (items : list StackItem)
| Struct (items : list StackItem)
| Map (entries : list (StackItem * StackItem))
| Interop (handle : nat).

(** Modelled from the spec: [vm.VMState], the state flag of the engine; the
    service tests it against [vm.FAULT]. *)
Inductive VMState : Type := NONE | HALT | FAULT | BREAK.

(** Modelled from the spec: [vm.ExecutionContext], the frame "code, ip":
    the code and the position of its [OpReader]. *)
Record ExecutionContext : Type := mkExecutionContext {
  Code : list byte;
  InstructionPointer : nat
}.

(** Modelled from the spec: [vm.RandomAccessStack], an operand stack; the
    head of the list is the top, [Peek(0)]. *)
Definition RandomAccessStack : Type := list StackItem.

(** Modelled from the spec: [vm.ExecutionEngine] with the fields the
    service reads: the two stacks, the frames, the opcode just fetched, the
    name of its [OpExec] and the state flag. *)
Record ExecutionEngine : Type := mkExecutionEngine {
  EvaluationStack : RandomAccessStack;
  AltStack : RandomAccessStack;
  Contexts : list ExecutionContext;      (* appended at the end *)
  OpCode : byte;
  OpExecName : string;                   (* [OpExec.Name] *)
  State : VMState
}.

(** Modelled from the spec: [engine.Context], the current frame, which is
    the last one pushed; [None] is Go's nil. *)
Definition Context (e : ExecutionEngine) : option ExecutionContext :=
  last (Contexts e).

Definition with_EvaluationStack (s : RandomAccessStack) (e : ExecutionEngine)
  : ExecutionEngine :=
  mkExecutionEngine s (AltStack e) (Contexts e) (OpCode e) (OpExecName e)
                    (State e).

Definition with_Contexts (cs : list ExecutionContext) (e : ExecutionEngine)
  : ExecutionEngine :=
  mkExecutionEngine (EvaluationStack e) (AltStack e) cs (OpCode e)
                    (OpExecName e) (State e).

(** The current context replaced in place (the engine holds a pointer to
    it). *)
Definition with_Context (c : ExecutionContext) (e : ExecutionEngine)
  : ExecutionEngine :=
  with_Contexts (take (length (Contexts e) - 1) (Contexts e) ++ [c]) e.

(** Modelled from the spec: [vm.NewExecutionEngine()], a fresh engine whose
    evaluation and alt stacks are empty and which has no frame yet. *)
Definition NewExecutionEngine : ExecutionEngine :=
  mkExecutionEngine [] [] [] "000"%byte "" NONE.

(** Modelled from the spec: [vm.NewExecutionContext(engine, code)], a frame
    over [code] with its instruction pointer at the start. *)
Definition NewExecutionContext (code : list byte) : ExecutionContext :=
  mkExecutionContext code 0.

(** Modelled from the spec: [engine.PushContext(ctx)] pushes a frame, which
    becomes the current one. *)
Definition PushContext (c : ExecutionContext) (e : ExecutionEngine)
  : ExecutionEngine :=
  with_Contexts (Contexts e ++ [c]) e.

(** Modelled from the spec: [stack.Count()], the number of items. *)
Definition Count (s : RandomAccessStack) : nat := length s.

(** Modelled from the spec: [stack.Peek(i)], the item [i] below the top. *)
Definition Peek (i : nat) (s : RandomAccessStack) : option StackItem := s !! i.

(** Modelled from the spec: [src.CopyTo(dst)], "the entire parent
    evaluation stack" is copied: the items of [src] are put on top of
    [dst], in order. *)
Definition CopyTo (src dst : RandomAccessStack) : RandomAccessStack :=
  src ++ dst.

(** Modelled from the spec: [vm.EvaluationStackCount(engine)]. *)
Definition EvaluationStackCount (e : ExecutionEngine) : nat :=
  Count (EvaluationStack e).

(** Modelled from the spec: [vm.PeekStackItem(engine)], the top of the
    evaluation stack. *)
Definition PeekStackItem (e : ExecutionEngine) : option StackItem :=
  Peek 0 (EvaluationStack e).

(** Modelled from the spec: [vm.PushData(engine, data)], one item pushed on
    the evaluation stack. *)
Definition PushData (x : StackItem) (e : ExecutionEngine) : ExecutionEngine :=
  with_EvaluationStack (x :: EvaluationStack e) e.

End vm.

(* ------------------------------------------------------------------ *)
(** ** packages context, event, core/types, storage *)

Module context.
(** Modelled from the spec: [context.Context], "one entry in the
    contract-call stack: (contract_address, code)". *)
Record Context : Type := mkContext {
  ContractAddress : common.Address;
  Code : list byte
}.
End context.

Module event.
(** Modelled from the spec: [event.NotifyEventInfo], the "NotifyEvent
    { contract, states }". *)
Record NotifyEventInfo : Type := mkNotifyEventInfo {
  ContractAddress : common.Address;
  States : vm.StackItem
}.
End event.

Module types.
(** Modelled from the spec: [types.Transaction], which "must expose
    signature_addresses": what [GetSignatureAddresses()] answers, a list
    of addresses or an error. *)
Record Transaction : Type := mkTransaction {
  GetSignatureAddresses : result (list common.Address)
}.
End types.

Module storage.
(** Modelled from the spec: the deployed contract, of which the service
    reads the code. *)
Record DeployCode : Type := mkDeployCode { Code : list byte }.

(** Modelled from the spec: [storage.CacheDB], the state overlay, as the
    service uses it: [GetContract(address)] answers an error, nil ([None],
    an unknown address) or a deployed contract. *)
Record CacheDB : Type := mkCacheDB {
  GetContract : common.Address -> result (option DeployCode)
}.
End storage.

(* ------------------------------------------------------------------ *)
(** ** package neovm: the service struct

    [NeoVmService] of neovm_service.go, declared ahead of its methods
    because [SmartContract.NewExecuteEngine] builds one.  The [ContextRef]
    and [CacheDB] pointers are not fields here: the [SmartContract] they
    point into is shared by all services of a transaction and is threaded
    next to the service, and the cache is read from it. *)

Module neovm.

Record NeoVmService : Type := mkNeoVmService {
  Notifications : list event.NotifyEventInfo;
  Code : list byte;
  Tx : types.Transaction;
  Time : N;
  Height : N;
  BlockHash : list byte;
  Engine : vm.ExecutionEngine;
  PreExec : bool
}.

Definition with_Engine (e : vm.ExecutionEngine) (s : NeoVmService)
  : NeoVmService :=
  mkNeoVmService (Notifications s) (Code s) (Tx s) (Time s)
                 (Height s) (BlockHash s) e (PreExec s).

End neovm.

(* ------------------------------------------------------------------ *)
(** ** package smartcontract (smart_contract.go) *)

Module smartcontract.

Definition MAX_EXECUTE_ENGINE : nat := 1024.

(** Modelled from the spec: [neovm.VM_STEP_LIMIT], the step ceiling of
    pre-execution, "max step count (preview mode) = 8,000,000". *)
Definition VM_STEP_LIMIT : Z := 8000000.

Record Config : Type := mkConfig {
  Time : N;
  Height : N;
  BlockHash : list byte;
  Tx : types.Transaction
}.

Record SmartContract : Type := mkSmartContract {
  Contexts : list context.Context;
  CacheDB : storage.CacheDB;
  Config_ : Config;
  Notifications : list event.NotifyEventInfo;
  Gas : N;
  ExecStep : Z;
  PreExec : bool
}.

Definition with_Contexts (cs : list context.Context) (this : SmartContract)
  : SmartContract :=
  mkSmartContract cs (CacheDB this) (Config_ this) (Notifications this)
                  (Gas this) (ExecStep this) (PreExec this).

Definition with_Notifications (ns : list event.NotifyEventInfo)
  (this : SmartContract) : SmartContract :=
  mkSmartContract (Contexts this) (CacheDB this) (Config_ this) ns
                  (Gas this) (ExecStep this) (PreExec this).

Definition with_Gas (g : N) (this : SmartContract) : SmartContract :=
  mkSmartContract (Contexts this) (CacheDB this) (Config_ this)
                  (Notifications this) g (ExecStep this) (PreExec this).

Definition with_ExecStep (n : Z) (this : SmartContract) : SmartContract :=
  mkSmartContract (Contexts this) (CacheDB this) (Config_ this)
                  (Notifications this) (Gas this) n (PreExec this).

(** [PushContext]: [this.Contexts = append(this.Contexts, context)]. *)
Definition PushContext (ctx : context.Context) (this : SmartContract)
  : SmartContract :=
  with_Contexts (Contexts this ++ [ctx]) this.

Definition CurrentContext (this : SmartContract) : option context.Context :=
  if decide (length (Contexts this) < 1) then None
  else Contexts this !! (length (Contexts this) - 1).

Definition CallingContext (this : SmartContract) : option context.Context :=
  if decide (length (Contexts this) < 2) then None
  else Contexts this !! (length (Contexts this) - 2).

Definition EntryContext (this : SmartContract) : option context.Context :=
  if decide (length (Contexts this) < 1) then None
  else Contexts this !! 0.

(** [PopContext]: [this.Contexts[:len(this.Contexts)-1]] when there is more
    than one context. *)
Definition PopContext (this : SmartContract) : SmartContract :=
  if decide (1 < length (Contexts this))
  then with_Contexts (take (length (Contexts this) - 1) (Contexts this)) this
  else this.

Definition PushNotifications (notifications : list event.NotifyEventInfo)
  (this : SmartContract) : SmartContract :=
  with_Notifications (Notifications this ++ notifications) this.

Definition CheckExecStep (this : SmartContract) : bool * SmartContract :=
  if decide (VM_STEP_LIMIT ≤ ExecStep this)%Z then (false, this)
  else (true, with_ExecStep (ExecStep this + 1)%Z this).

(** [CheckUseGas]: [Gas] is a uint64; the subtraction runs only when it
    cannot wrap. *)
Definition CheckUseGas (gas : N) (this : SmartContract)
  : bool * SmartContract :=
  if decide (Gas this < gas)%N then (false, this)
  else (true, with_Gas (Gas this - gas)%N this).

Definition checkContexts (this : SmartContract) : bool :=
  if decide (MAX_EXECUTE_ENGINE < length (Contexts this)) then false
  else true.

Definition NewExecuteEngine (code : list byte) (this : SmartContract)
  : result neovm.NeoVmService :=
  if negb (checkContexts this)
  then Err (Errorf "engine over max limit!" None)
  else Ok (neovm.mkNeoVmService
             [] code (Tx (Config_ this))
             (Time (Config_ this)) (Height (Config_ this))
             (BlockHash (Config_ this)) vm.NewExecutionEngine
             (PreExec this)).

(** The [for _, v := range addresses] loop of [checkAccountAddress]. *)
Fixpoint address_in (address : common.Address)
  (addresses : list common.Address) : bool :=
  match addresses with
  | [] => false
  | v :: rest => if decide (v = address) then true
                 else address_in address rest
  end.

Definition checkAccountAddress (address : common.Address)
  (this : SmartContract) : bool :=
  match types.GetSignatureAddresses (Tx (Config_ this)) with
  | Err _ => false                  (* logged, not returned *)
  | Ok addresses => address_in address addresses
  end.

Definition checkContractAddress (address : common.Address)
  (this : SmartContract) : bool :=
  match CallingContext this with
  | Some c => if decide (context.ContractAddress c = address) then true
              else false
  | None => false
  end.

Definition CheckWitness (address : common.Address) (this : SmartContract)
  : bool :=
  if checkAccountAddress address this || checkContractAddress address this
  then true else false.

End smartcontract.

(* ------------------------------------------------------------------ *)
(** ** package neovm (neovm_service.go): the driver *)

Module neovm_service.

Import neovm.

(** The pair a method of the service works on: the service itself and
    the [SmartContract] behind its [ContextRef]. *)
Definition St : Type := NeoVmService * smartcontract.SmartContract.

(** [type Service struct { Execute; Validator }].  [Execute] receives the
    service (and through it the engine, the [ContextRef] and the cache)
    and may change all of them; a nil [Validator] is [None]. *)
Record Service : Type := mkService {
  Execute : St -> option Error * St;
  Validator : option (vm.ExecutionEngine -> option Error * vm.ExecutionEngine)
}.

(** What the service calls and this development does not cover: the
    opcode table and the interpreter of package vm, the gas schedule, the
    key and signature primitives, the address helpers of package common
    and the table of registered services.  The service is verified for
    every such host. *)
Record Host : Type := mkHost {
  (* vm: opcode values *)
  PUSHBYTES1 : byte;
  PUSHBYTES75 : byte;
  PUSH16 : byte;
  DEPTH : byte;
  DUP : byte;
  OVER : byte;
  TUCK : byte;
  UNPACK : byte;
  VERIFY : byte;
  SYSCALL : byte;
  APPCALL : byte;
  (* vm: the interpreter *)
  ExecuteCode : vm.ExecutionEngine -> option Error * vm.ExecutionEngine;
  ValidateOp : vm.ExecutionEngine -> option Error * vm.ExecutionEngine;
  StepInto : vm.ExecutionEngine -> option Error * vm.ExecutionEngine;
  GetByteArray : vm.StackItem -> result (list byte);
  ReadBytes : nat -> vm.ExecutionContext ->
              result (list byte) * vm.ExecutionContext;
  ReadVarString : N -> vm.ExecutionContext ->
                  result string * vm.ExecutionContext;
  MAX_BYTEARRAY_SIZE : N;
  (* neovm: gas schedule *)
  OPCODE_GAS : N;
  GasPrice : vm.ExecutionEngine -> string -> result N;
  (* keypair, signature *)
  PublicKey : Type;
  DeserializePublicKey : list byte -> result PublicKey;
  signature_Verify : PublicKey -> list byte -> list byte -> option Error;
  (* common *)
  AddressFromVmCode : list byte -> common.Address;
  AddressParseFromBytes : list byte -> result common.Address;
  (* neovm: registered services *)
  ServiceMap : gmap string Service
}.

(** Modelled from the spec: [DUPLICATE_STACK_SIZE], the bound of
    [checkStackSize], "max stack = 2048". *)
Definition DUPLICATE_STACK_SIZE : nat := 2048.

Definition ERR_CHECK_STACK_SIZE : Error :=
  NewErr "[NeoVmService] vm execution exceeded the max stack size!".
Definition ERR_EXECUTE_CODE : Error :=
  NewErr "[NeoVmService] vm execution code was invalid!".
Definition ERR_GAS_INSUFFICIENT : Error :=
  NewErr "[NeoVmService] insufficient gas for transaction!".
Definition VM_EXEC_STEP_EXCEED : Error :=
  NewErr "[NeoVmService] vm execution exceeded the step limit!".
Definition CONTRACT_NOT_EXIST : Error :=
  NewErr "[NeoVmService] the given contract does not exist!".
Definition VM_EXEC_FAULT : Error :=
  NewErr "[NeoVmService] vm execution encountered a state fault!".

Definition BYTE_ZERO_20 : list byte := replicate 20 "000"%byte.

(** Comparison of opcodes, which are bytes. *)
Definition op_lt (a b : byte) : bool := (Byte.to_N a <? Byte.to_N b)%N.
Definition op_le (a b : byte) : bool := (Byte.to_N a <=? Byte.to_N b)%N.
Definition op_eq (a b : byte) : bool := bool_decide (a = b).

(** *** The state-and-error monad of a service method

    A method reads and writes the service and the shared [SmartContract];
    [return nil, err] leaves what was written so far in place.  [None] is
    a run that has not finished within the fuel given. *)
Definition M (A : Type) : Type := St -> option (result A * St).

Definition ret {A} (a : A) : M A := fun s => Some (Ok a, s).
Definition raise {A} (e : Error) : M A := fun s => Some (Err e, s).
Definition bind {A B} (m : M A) (k : A -> M B) : M B :=
  fun s =>
    match m s with
    | None => None
    | Some (Err e, s') => Some (Err e, s')
    | Some (Ok a, s') => k a s'
    end.

Declare Scope go_scope.
Delimit Scope go_scope with go.
Notation "x <- m ;; k" := (bind m (fun x => k))
  (at level 100, m at next level, right associativity) : go_scope.
Notation "m ;; k" := (bind m (fun _ => k))
  (at level 100, right associativity) : go_scope.
Open Scope go_scope.

(** [this.Engine] *)
Definition engine : M vm.ExecutionEngine :=
  fun s => Some (Ok (Engine s.1), s).

Definition set_engine (e : vm.ExecutionEngine) : M unit :=
  fun s => Some (Ok tt, (with_Engine e s.1, s.2)).

(** A method of the engine that answers an [error]. *)
Definition on_engine
  (f : vm.ExecutionEngine -> option Error * vm.ExecutionEngine) : M unit :=
  fun s =>
    let '(err, e') := f (Engine s.1) in
    let s' := (with_Engine e' s.1, s.2) in
    match err with
    | Some err => Some (Err err, s')
    | None => Some (Ok tt, s')
    end.

(** A method of [this.ContextRef]. *)
Definition on_ref {A}
  (f : smartcontract.SmartContract -> A * smartcontract.SmartContract)
  : M A :=
  fun s => let '(a, ref') := f s.2 in Some (Ok a, (s.1, ref')).

(** [if err != nil { return ..., wrap(err) }] around a call. *)
Definition wrap_err {A} (w : Error -> Error) (m : M A) : M A :=
  fun s =>
    match m s with
    | Some (Err e, s') => Some (Err (w e), s')
    | r => r
    end.

Definition of_result {A} (r : result A) : M A :=
  match r with Ok a => ret a | Err e => raise e end.

Section WithHost.

Context (H : Host).

(** [vm.PopByteArray(engine)]: the top item is removed and read as
    bytes; on an empty stack the nil item is dereferenced. *)
Definition PopByteArray : M (list byte) :=
  e <- engine ;;
  match vm.EvaluationStack e with
  | [] => raise (Panic "nil stack item")
  | x :: rest =>
      set_engine (vm.with_EvaluationStack rest e) ;;
      of_result (GetByteArray H x)
  end.

(** A read on [engine.Context.OpReader], which moves the instruction
    pointer of the current context. *)
Definition on_OpReader {A}
  (f : vm.ExecutionContext -> result A * vm.ExecutionContext) : M A :=
  e <- engine ;;
  match vm.Context e with
  | None => raise (Panic "nil execution context")
  | Some c =>
      let '(r, c') := f c in
      set_engine (vm.with_Context c' e) ;;
      of_result r
  end.

(** [checkStackSize], lines 299-325. [precharge] is [size] before the
    stack counts are added; [None] is the early [return false]. *)
Definition precharge (engine : vm.ExecutionEngine) : option nat :=
  if op_lt (vm.OpCode engine) (PUSH16 H) then Some 1
  else if op_eq (vm.OpCode engine) (DEPTH H)
          || op_eq (vm.OpCode engine) (DUP H)
          || op_eq (vm.OpCode engine) (OVER H)
          || op_eq (vm.OpCode engine) (TUCK H) then Some 1
  else if op_eq (vm.OpCode engine) (UNPACK H) then
    if decide (vm.Count (vm.EvaluationStack engine) = 0) then None
    else match vm.PeekStackItem engine with
         | Some (vm.Array a) => Some (length a)
         | Some (vm.Struct a) => Some (length a)
         | _ => Some 0
         end
  else Some 0.

Definition checkStackSize (engine : vm.ExecutionEngine) : bool :=
  match precharge engine with
  | None => false
  | Some size =>
      let size := size + vm.Count (vm.EvaluationStack engine)
                  + vm.Count (vm.AltStack engine) in
      if decide (DUPLICATE_STACK_SIZE < size) then false else true
  end.

(** [getContract], lines 287-297; [this.CacheDB] is the cache of the
    [SmartContract]. *)
Definition getContract (address : common.Address) : M (list byte) :=
  fun s =>
    match storage.GetContract (smartcontract.CacheDB s.2) address with
    | Err _ => Some (Err (NewErr "[getContract] get contract context error!"), s)
    | Ok None => Some (Err CONTRACT_NOT_EXIST, s)
    | Ok (Some dep) => Some (Ok (storage.Code dep), s)
    end.

(** [SystemCall], lines 260-285; [engine] is [this.Engine]. *)
Definition SystemCall : M unit :=
  serviceName <- on_OpReader (ReadVarString H (MAX_BYTEARRAY_SIZE H)) ;;
  match ServiceMap H !! serviceName with
  | None =>
      raise (NewErr ("[SystemCall] the given service is not supported: "
                     +:+ serviceName))
  | Some service =>
      match Validator service with
      | Some validator =>
          wrap_err (fun err => NewDetailErr err
                      "[SystemCall] there was a service validator error!")
                   (on_engine validator)
      | None => ret tt
      end ;;
      e <- engine ;;
      price <- of_result (GasPrice H e serviceName) ;;
      ok <- on_ref (smartcontract.CheckUseGas price) ;;
      if negb ok then raise ERR_GAS_INSUFFICIENT
      else
        wrap_err (fun err => NewDetailErr err
                    "[SystemCall] service execution error!")
                 (fun s => let '(err, s') := Execute service s in
                           match err with
                           | Some err => Some (Err err, s')
                           | None => Some (Ok tt, s')
                           end)
  end.

(** [case vm.VERIFY], lines 176-200. *)
Definition Invoke_VERIFY : M unit :=
  e <- engine ;;
  if decide (vm.EvaluationStackCount e < 3)
  then raise (NewErr "[VERIFY] too few input parameters")
  else
    pubKey <- PopByteArray ;;
    key <- of_result (DeserializePublicKey H pubKey) ;;
    sig <- PopByteArray ;;
    data <- PopByteArray ;;
    e <- engine ;;
    match signature_Verify H key data sig with
    | Some _ => set_engine (vm.PushData (vm.Boolean false) e)
    | None => set_engine (vm.PushData (vm.Boolean true) e)
    end.

(** The address an APPCALL targets, lines 206-221: the 20-byte operand,
    or the popped top of the stack when the operand is all zero. *)
Definition Invoke_APPCALL_address : M (list byte) :=
  address <- wrap_err (fun err =>
               Errorf "[Appcall] read contract address error: %v" (Some err))
               (on_OpReader (ReadBytes H 20)) ;;
  if decide (address = BYTE_ZERO_20) then
    e <- engine ;;
    if decide (vm.EvaluationStackCount e < 1)
    then raise (Errorf "[Appcall] too few input parameters: %d" None)
    else
      address <- wrap_err (fun err =>
                   Errorf "[Appcall] pop contract address error: %v" (Some err))
                   PopByteArray ;;
      if decide (length address ≠ 20)
      then raise (Errorf "[Appcall] pop contract address len != 20: %x" None)
      else ret address
  else ret address.

(** [case vm.APPCALL], lines 205-241.  [invoke] is [service.Invoke()] on
    the child service, which shares the [ContextRef]. *)
Definition Invoke_APPCALL
  (invoke : NeoVmService -> smartcontract.SmartContract ->
            option (result (option vm.StackItem) * St)) : M unit :=
  address <- Invoke_APPCALL_address ;;
  addr <- of_result (AddressParseFromBytes H address) ;;
  code <- getContract addr ;;
  service <- (fun s => Some (smartcontract.NewExecuteEngine code s.2, s)) ;;
  e <- engine ;;
  let service :=
    with_Engine
      (vm.with_EvaluationStack
         (vm.CopyTo (vm.EvaluationStack e)
                    (vm.EvaluationStack (Engine service)))
         (Engine service))
      service in
  result <- (fun s =>
               match invoke service s.2 with
               | None => None
               | Some (r, (_, ref')) => Some (r, (s.1, ref'))
               end) ;;
  match result with
  | Some result => e <- engine ;; set_engine (vm.PushData result e)
  | None => ret tt
  end.

(** The [default] case, lines 242-249. *)
Definition Invoke_default : M unit :=
  wrap_err (fun err => NewDetailErr err "[NeoVmService] vm execution error!")
           (on_engine (StepInto H)) ;;
  e <- engine ;;
  match vm.State e with
  | vm.FAULT => raise VM_EXEC_FAULT
  | _ => ret tt
  end.

(** The gas of the opcode just fetched, lines 159-174. *)
Definition Invoke_gas : M unit :=
  e <- engine ;;
  if op_le (PUSHBYTES1 H) (vm.OpCode e) && op_le (vm.OpCode e) (PUSHBYTES75 H)
  then
    ok <- on_ref (smartcontract.CheckUseGas (OPCODE_GAS H)) ;;
    if negb ok then raise ERR_GAS_INSUFFICIENT else ret tt
  else
    on_engine (ValidateOp H) ;;
    e <- engine ;;
    price <- of_result (GasPrice H e (vm.OpExecName e)) ;;
    ok <- on_ref (smartcontract.CheckUseGas price) ;;
    if negb ok then raise ERR_GAS_INSUFFICIENT else ret tt.

(** [switch this.Engine.OpCode], lines 175-249. *)
Definition Invoke_switch
  (invoke : NeoVmService -> smartcontract.SmartContract ->
            option (result (option vm.StackItem) * St)) : M unit :=
  e <- engine ;;
  if op_eq (vm.OpCode e) (VERIFY H) then Invoke_VERIFY
  else if op_eq (vm.OpCode e) (SYSCALL H) then
    wrap_err (fun err => NewDetailErr err
                "[NeoVmService] service system call error!")
             SystemCall
  else if op_eq (vm.OpCode e) (APPCALL H) then Invoke_APPCALL invoke
  else Invoke_default.

(** One turn of the [for] loop of [Invoke], lines 140-250: [false] is
    [break], [true] goes round again. *)
Definition Invoke_turn
  (invoke : NeoVmService -> smartcontract.SmartContract ->
            option (result (option vm.StackItem) * St)) : M bool :=
  this <- (fun s => Some (Ok s.1, s)) ;;
  ok <- (if PreExec this then on_ref smartcontract.CheckExecStep
         else ret true) ;;
  if negb ok then raise VM_EXEC_STEP_EXCEED
  else
    e <- engine ;;
    match vm.Context e with
    | None => ret false
    | Some c =>
        if decide (length (vm.Code c) ≤ vm.InstructionPointer c)
        then ret false
        else
          on_engine (ExecuteCode H) ;;
          e <- engine ;;
          match vm.Context e with
          | None => raise (Panic "nil execution context")
          | Some c =>
              (if decide (vm.InstructionPointer c < length (vm.Code c))
               then if checkStackSize e then ret tt
                    else raise ERR_CHECK_STACK_SIZE
               else ret tt) ;;
              Invoke_gas ;;
              Invoke_switch invoke ;;
              ret true
          end
    end.

(** [Invoke] around its loop, lines 134-139 and 251-256. *)
Definition Invoke_with (loop : M unit)
  (this : NeoVmService) (ref : smartcontract.SmartContract)
  : option (result (option vm.StackItem) * St) :=
  if decide (length (Code this) = 0)
  then Some (Err ERR_EXECUTE_CODE, (this, ref))
  else
    let ref := smartcontract.PushContext
                 (context.mkContext (AddressFromVmCode H (Code this))
                                    (Code this)) ref in
    let this := with_Engine
                  (vm.PushContext (vm.NewExecutionContext (Code this))
                                  (Engine this)) this in
    match loop (this, ref) with
    | None => None
    | Some (Err err, s) => Some (Err err, s)
    | Some (Ok _, (this, ref)) =>
        let ref := smartcontract.PopContext ref in
        let ref := smartcontract.PushNotifications (Notifications this) ref in
        if decide (vm.Count (vm.EvaluationStack (Engine this)) ≠ 0)
        then Some (Ok (vm.Peek 0 (vm.EvaluationStack (Engine this))),
                   (this, ref))
        else Some (Ok None, (this, ref))
    end.

(** The [for] loop with fuel: every turn, and every nested [Invoke],
    runs on what is left of it. *)
Fixpoint Invoke_loop (fuel : nat) : M unit :=
  match fuel with
  | 0 => fun _ => None
  | S fuel =>
      again <- Invoke_turn (Invoke_with (Invoke_loop fuel)) ;;
      if again : bool then Invoke_loop fuel else ret tt
  end.

(** [func (this *NeoVmService) Invoke() (interface{}, error)]. *)
Definition Invoke (fuel : nat)
  (this : NeoVmService) (ref : smartcontract.SmartContract)
  : option (result (option vm.StackItem) * St) :=
  Invoke_with (Invoke_loop fuel) this ref.

End WithHost.

End neovm_service.

(* ------------------------------------------------------------------ *)
(** ** package ontid (utils.go): the key of an ONT ID *)

Module ontid.

Section WithContractAddress.

(** [utils.OntIDContractAddress], an [Address] defined in package utils. *)
Variable OntIDContractAddress : common.Address.

Definition encodeID (id : list byte) : result (list byte) :=
  let length_ := length id in
  if decide (length_ = 0 ∨ 255 < length_)
  then Err (NewErr "encode ID error: invalid ID length")
  else
    let enc := OntIDContractAddress ++ [byte_of_int length_] in
    let enc := enc ++ id in
    Ok enc.

(** [size < prefix || size != int(data[prefix])+1+prefix]: the index is
    evaluated whenever [size >= prefix], also when [size = prefix]. *)
Definition decodeID (data : list byte) : result (list byte) :=
  let prefix := length OntIDContractAddress in
  let size := length data in
  if decide (size < prefix)
  then Err (NewErr "decode ID error: invalid data length")
  else
    match data !! prefix with
    | None => Err (Panic "index out of range")
    | Some b =>
        if decide (size ≠ int_of_byte b + 1 + prefix)
        then Err (NewErr "decode ID error: invalid data length")
        else Ok (drop (prefix + 1) data)
    end.

End WithContractAddress.

End ontid.

(* ------------------------------------------------------------------ *)
(** ** A small host to run scenarios on

    The interpreter, the gas table and the service effects are parameters of
    the driver; the theorems below hold for every host.  To run the
    driver on a concrete script, this module supplies one host: the opcode
    values of the NeoVM table, a reader over the code of the current
    frame, a handful of stack opcodes, a flat gas price, and the
    [Runtime.Notify] service. *)

Module minivm.

Import neovm neovm_service.

Definition PUSHBYTES1 : byte := Byte.x01.
Definition PUSHBYTES75 : byte := Byte.x4b.
Definition PUSH1 : byte := Byte.x51.
Definition PUSH16 : byte := Byte.x60.
Definition RET : byte := Byte.x66.
Definition APPCALL : byte := Byte.x67.
Definition SYSCALL : byte := Byte.x68.
Definition DEPTH : byte := Byte.x74.
Definition DROP : byte := Byte.x75.
Definition DUP : byte := Byte.x76.
Definition OVER : byte := Byte.x78.
Definition TUCK : byte := Byte.x7d.
Definition VERIFY : byte := Byte.xad.
Definition UNPACK : byte := Byte.xc2.

Definition EOF : Error := NewErr "EOF".

Definition fault (e : vm.ExecutionEngine) : option Error * vm.ExecutionEngine :=
  (Some (NewErr "[ExecutionEngine] fault"),
   vm.mkExecutionEngine (vm.EvaluationStack e) (vm.AltStack e)
     (vm.Contexts e) (vm.OpCode e) (vm.OpExecName e) vm.FAULT).

(** [OpReader.ReadBytes(n)]: the next [n] bytes of the code. *)
Definition ReadBytes (n : nat) (c : vm.ExecutionContext)
  : result (list byte) * vm.ExecutionContext :=
  if decide (vm.InstructionPointer c + n ≤ length (vm.Code c))
  then (Ok (take n (drop (vm.InstructionPointer c) (vm.Code c))),
        vm.mkExecutionContext (vm.Code c) (vm.InstructionPointer c + n))
  else (Err EOF, c).

(** [OpReader.ReadVarString(max)]: a length byte below 0xFD, then that
    many bytes. *)
Definition ReadVarString (max : N) (c : vm.ExecutionContext)
  : result string * vm.ExecutionContext :=
  match ReadBytes 1 c with
  | (Ok [l], c1) =>
      if decide (int_of_byte l < 253 ∧ (N.of_nat (int_of_byte l) ≤ max)%N)
      then match ReadBytes (int_of_byte l) c1 with
           | (Ok bs, c2) => (Ok (String.string_of_list_byte bs), c2)
           | (Err e, c2) => (Err e, c2)
           end
      else (Err (NewErr "[ReadVarString] length out of range"), c1)
  | (Ok _, c1) => (Err EOF, c1)
  | (Err e, c1) => (Err e, c1)
  end.

(** [ExecuteCode]: fetch the opcode byte at the instruction pointer. *)
Definition ExecuteCode (e : vm.ExecutionEngine)
  : option Error * vm.ExecutionEngine :=
  match vm.Context e with
  | None => fault e
  | Some c =>
      match vm.Code c !! vm.InstructionPointer c with
      | None => fault e
      | Some op =>
          (None,
           vm.with_Context
             (vm.mkExecutionContext (vm.Code c) (S (vm.InstructionPointer c)))
             (vm.mkExecutionEngine (vm.EvaluationStack e) (vm.AltStack e)
                (vm.Contexts e) op (vm.OpExecName e) (vm.State e)))
      end
  end.

(** [ValidateOp]: every opcode byte is accepted; [OpExec.Name] is set. *)
Definition ValidateOp (e : vm.ExecutionEngine)
  : option Error * vm.ExecutionEngine :=
  (None,
   vm.mkExecutionEngine (vm.EvaluationStack e) (vm.AltStack e)
     (vm.Contexts e) (vm.OpCode e) "OP" (vm.State e)).

(** [StepInto]: PUSHBYTES1..75, PUSH1..16, DUP, DROP and RET; any other
    opcode faults. *)
Definition StepInto (e : vm.ExecutionEngine)
  : option Error * vm.ExecutionEngine :=
  let op := vm.OpCode e in
  if op_le PUSHBYTES1 op && op_le op PUSHBYTES75 then
    match vm.Context e with
    | None => fault e
    | Some c =>
        match ReadBytes (int_of_byte op) c with
        | (Ok bs, c') => (None, vm.PushData (vm.ByteArray bs) (vm.with_Context c' e))
        | (Err _, _) => fault e
        end
    end
  else if op_le PUSH1 op && op_le op PUSH16 then
    (None, vm.PushData (vm.Integer (Z.of_nat (int_of_byte op) - 80)) e)
  else if op_eq op DUP then
    match vm.EvaluationStack e with
    | x :: _ => (None, vm.PushData x e)
    | [] => fault e
    end
  else if op_eq op DROP then
    match vm.EvaluationStack e with
    | _ :: rest => (None, vm.with_EvaluationStack rest e)
    | [] => fault e
    end
  else if op_eq op RET then
    (None, vm.with_Contexts (take (length (vm.Contexts e) - 1) (vm.Contexts e)) e)
  else fault e.

(** Modelled from the spec: the byte form of an [Integer], "canonical
    two's-complement byte encoding, minimal length", little-endian, with
    zero as the empty string. *)
Definition Integer_bytes (z : Z) : list byte :=
  let n := if decide (z = 0)%Z then 0
           else if decide (0 < z)%Z then Z.to_nat ((Z.log2 z + 9) / 8)
           else if decide (z = -1)%Z then 1
           else Z.to_nat ((Z.log2 (- z - 1) + 9) / 8) in
  (fun i => byte_of_int (Z.to_nat ((z / 256 ^ Z.of_nat i) mod 256))) <$> seq 0 n.

(** Modelled from the spec: [GetByteArray], "Integer, Boolean and
    ByteString are interconvertible"; the containers and interop handles
    have no byte form (a type error). *)
Definition GetByteArray (x : vm.StackItem) : result (list byte) :=
  match x with
  | vm.ByteArray b => Ok b
  | vm.Boolean true => Ok [Byte.x01]
  | vm.Boolean false => Ok []
  | vm.Integer z => Ok (Integer_bytes z)
  | vm.Array _ => Err (NewErr "Not support array to byte array")
  | vm.Struct _ => Err (NewErr "Not support struct to byte array")
  | vm.Map _ => Err (NewErr "Not support map to byte array")
  | vm.Interop _ => Err (NewErr "Not support interface to byte array")
  end.

(** A stand-in for [keypair.DeserializePublicKey]: 33 bytes that start
    with 0x02 or 0x03. *)
Definition DeserializePublicKey (b : list byte) : result (list byte) :=
  match b with
  | t :: _ =>
      if decide ((t = Byte.x02 ∨ t = Byte.x03) ∧ length b = 33) then Ok b
      else Err (NewErr "deserializing public key failed")
  | [] => Err (NewErr "deserializing public key failed")
  end.

(** A stand-in for [signature.Verify]: the signature of [data] under
    [key] is [key ++ data]. *)
Definition signature_Verify (key data sig : list byte) : option Error :=
  if decide (sig = key ++ data) then None
  else Some (NewErr "signature verification failed").

(** A stand-in for [common.AddressFromVmCode]: the first 20 bytes of the
    code, padded with zeros. *)
Definition AddressFromVmCode (code : list byte) : common.Address :=
  take 20 (code ++ replicate 20 Byte.x00).

Definition AddressParseFromBytes (b : list byte) : result common.Address :=
  if decide (length b = common.ADDR_LEN) then Ok b
  else Err (NewErr "[Common]: AddressParseFromBytes err, len != 20").

Definition RUNTIME_NOTIFY_NAME : string := "Runtime.Notify".

Definition validatorNotify (e : vm.ExecutionEngine)
  : option Error * vm.ExecutionEngine :=
  if decide (vm.EvaluationStackCount e < 1)
  then (Some (NewErr "[RuntimeNotify] Too few input parameters"), e)
  else (None, e).

(** Modelled from the spec: [RuntimeNotify], the effect of
    [Runtime.Notify], which [ServiceMap] registers and the sources at hand
    do not hold.  The spec has one "ordered per-transaction log of
    (contract, payload) events", to which "notifications are appended in
    the exact order of emitting Runtime.Notify calls across all nested
    frames".  So the effect pops the payload and appends the event of the
    current context to the [Notifications] of the [SmartContract], the
    log of the transaction, through [PushNotifications]; the
    [Notifications] a service holds itself are left as they are. *)
Definition RuntimeNotify (s : St) : option Error * St :=
  let '(service, ref) := s in
  match vm.EvaluationStack (Engine service) with
  | [] => (Some (Panic "nil stack item"), s)
  | item :: rest =>
      let service :=
        with_Engine (vm.with_EvaluationStack rest (Engine service)) service in
      match smartcontract.CurrentContext ref with
      | None => (Some (Panic "nil context"), (service, ref))
      | Some context =>
          (None,
           (service,
            smartcontract.PushNotifications
              [event.mkNotifyEventInfo (context.ContractAddress context) item]
              ref))
      end
  end.

Definition ServiceMap : gmap string Service :=
  {[ RUNTIME_NOTIFY_NAME := mkService RuntimeNotify (Some validatorNotify) ]}.

Definition host : Host :=
  {| neovm_service.PUSHBYTES1 := PUSHBYTES1;
     neovm_service.PUSHBYTES75 := PUSHBYTES75;
     neovm_service.PUSH16 := PUSH16;
     neovm_service.DEPTH := DEPTH;
     neovm_service.DUP := DUP;
     neovm_service.OVER := OVER;
     neovm_service.TUCK := TUCK;
     neovm_service.UNPACK := UNPACK;
     neovm_service.VERIFY := VERIFY;
     neovm_service.SYSCALL := SYSCALL;
     neovm_service.APPCALL := APPCALL;
     neovm_service.ExecuteCode := ExecuteCode;
     neovm_service.ValidateOp := ValidateOp;
     neovm_service.StepInto := StepInto;
     neovm_service.GetByteArray := GetByteArray;
     neovm_service.ReadBytes := ReadBytes;
     neovm_service.ReadVarString := ReadVarString;
     neovm_service.MAX_BYTEARRAY_SIZE := 1048576;
     neovm_service.OPCODE_GAS := 1;
     neovm_service.GasPrice := fun _ _ => Ok 1%N;
     neovm_service.PublicKey := list byte;
     neovm_service.DeserializePublicKey := DeserializePublicKey;
     neovm_service.signature_Verify := signature_Verify;
     neovm_service.AddressFromVmCode := AddressFromVmCode;
     neovm_service.AddressParseFromBytes := AddressParseFromBytes;
     neovm_service.ServiceMap := ServiceMap |}.

(** *** Scripts *)

Definition bytes_of (s : string) : list byte := String.list_byte_of_string s.

(** [PUSHBYTESn data], for data of 1 to 75 bytes. *)
Definition push (data : string) : list byte :=
  byte_of_int (length (bytes_of data)) :: bytes_of data.

(** [SYSCALL name]. *)
Definition syscall (name : string) : list byte :=
  SYSCALL :: byte_of_int (length (bytes_of name)) :: bytes_of name.

(** [Notify(payload)]. *)
Definition notify (payload : string) : list byte :=
  push payload ++ syscall RUNTIME_NOTIFY_NAME.

(** Contract B emits b1. *)
Definition codeB : list byte := notify "b1".

(** Contract A emits a1, APPCALLs B, then emits a2. *)
Definition codeA : list byte :=
  notify "a1" ++ APPCALL :: AddressFromVmCode codeB ++ notify "a2".

Definition addressA : common.Address := AddressFromVmCode codeA.
Definition addressB : common.Address := AddressFromVmCode codeB.

(** A contract that expects its own address on top of the stack and calls
    itself through it: [DUP; APPCALL 0...0]. *)
Definition codeR : list byte := DUP :: APPCALL :: BYTE_ZERO_20.

(** The entry script that starts [codeR]: push its address, then
    [DUP; APPCALL 0...0]. *)
Definition codeE : list byte :=
  byte_of_int 20 :: AddressFromVmCode codeR ++ codeR.

(** A cache that holds the given contracts under their addresses. *)
Definition cache (deployed : list (list byte)) : storage.CacheDB :=
  storage.mkCacheDB (fun address =>
    Ok (storage.mkDeployCode <$>
          list_find (fun code => AddressFromVmCode code = address) deployed
            ≫= fun p => Some p.2)).

(** The [SmartContract] of a fresh transaction. *)
Definition fresh (deployed : list (list byte))
  (signers : result (list common.Address)) (gas : N)
  : smartcontract.SmartContract :=
  smartcontract.mkSmartContract
    [] (cache deployed)
    (smartcontract.mkConfig 0 0 [] (types.mkTransaction signers))
    [] gas 0 false.

(** Run a script as the entry contract of a fresh transaction. *)
Definition run (fuel : nat) (deployed : list (list byte)) (gas : N)
  (code : list byte) : option (result (option vm.StackItem) * St) :=
  let ref := fresh deployed (Ok []) gas in
  match smartcontract.NewExecuteEngine code ref with
  | Err e => Some (Err e, (mkNeoVmService [] code (types.mkTransaction (Ok []))
                             0 0 [] vm.NewExecutionEngine false, ref))
  | Ok service => Invoke host fuel service ref
  end.

Definition event_of (address : common.Address) (payload : string)
  : event.NotifyEventInfo :=
  event.mkNotifyEventInfo address (vm.ByteArray (bytes_of payload)).

(** *** States for single steps *)

(** A service stopped in [code] at position [ip] with [st] on its
    evaluation stack, next to a [SmartContract] whose only context is
    that of [code]. *)
Definition stopped_at (code : list byte) (ip : nat)
  (st : vm.RandomAccessStack) (deployed : list (list byte)) (gas : N) : St :=
  (mkNeoVmService [] code (types.mkTransaction (Ok [])) 0 0 []
     (vm.mkExecutionEngine st [] [vm.mkExecutionContext code ip]
                           Byte.x00 "" vm.NONE)
     false,
   smartcontract.PushContext
     (context.mkContext (AddressFromVmCode code) code)
     (fresh deployed (Ok []) gas)).

(** A well-formed key of this host, and the signature of "msg" under it. *)
Definition keyK : list byte := Byte.x02 :: replicate 32 Byte.x11.
Definition sigK : list byte := keyK ++ bytes_of "msg".

(** An account address. *)
Definition addressS : common.Address := replicate 20 Byte.x53.

(** The [SmartContract] inside B called by A, for a transaction whose
    signature addresses are [signers]. *)
Definition inside_B (signers : result (list common.Address))
  : smartcontract.SmartContract :=
  smartcontract.PushContext (context.mkContext addressB codeB)
    (smartcontract.PushContext (context.mkContext addressA codeA)
       (fresh [codeA; codeB] signers 100)).

Definition PUSH15 : byte := Byte.x5f.

(** An address for the ONT ID contract, to run [encodeID] with. *)
Definition OntIDContractAddress : common.Address :=
  replicate 19 Byte.x00 ++ [Byte.x03].

(** [n] times PUSH1, then the given opcodes. *)
Definition fill (n : nat) (then_ : list byte) : list byte :=
  replicate n PUSH1 ++ then_.

End minivm.

(* ------------------------------------------------------------------ *)
(** ** package ontid (utils.go): storage keys and the witness of a key *)

Module ontid_utils.

Definition flag_exist : byte := Byte.x01.
Definition FIELD_VERSION : byte := Byte.x00.
Definition FLAG_VERSION : byte := Byte.x01.
Definition FIELD_PK : byte := Byte.x01.
Definition FIELD_ATTR : byte := Byte.x02.
Definition FIELD_RECOVERY : byte := Byte.x03.

(** The storage key of a field of an encoded id, [append(encID, FIELD)],
    as [setRecovery] and [getRecovery] build it for [FIELD_RECOVERY]. *)
Definition field_key (encID : list byte) (field : byte) : list byte :=
  encID ++ [field].

(** [hex.EncodeToString] of the Go library: two lower-case digits a byte. *)
Definition hex_digit (n : nat) : Ascii.ascii :=
  nth n (String.list_ascii_of_string "0123456789abcdef") Ascii.zero.

Definition hex_EncodeToString (b : list byte) : string :=
  String.string_of_list_ascii
    (b ≫= λ x, [hex_digit (int_of_byte x / 16); hex_digit (int_of_byte x mod 16)]).

(** What [checkWitness] calls outside this package: the key parser of
    package keypair, [types.AddressFromPubKey], and
    [common.AddressParseFromBytes], which answers an address next to its
    error. *)
Record Keys : Type := mkKeys {
  PublicKey : Type;
  DeserializePublicKey : list byte -> result PublicKey;
  AddressFromPubKey : PublicKey -> common.Address;
  AddressParseFromBytes : list byte -> common.Address * option Error
}.

(** [checkWitness], lines 94-111: [key] is tried as a public key, then as
    an address; [srvc.ContextRef] is the [SmartContract].  The error of
    [AddressParseFromBytes] is assigned and not looked at. *)
Definition checkWitness (K : Keys) (ContextRef : smartcontract.SmartContract)
  (key : list byte) : option Error :=
  let as_key :=
    match DeserializePublicKey K key with
    | Ok pk => smartcontract.CheckWitness (AddressFromPubKey K pk) ContextRef
    | Err _ => false
    end in
  if as_key then None
  else
    let '(addr, err) := AddressParseFromBytes K key in
    if smartcontract.CheckWitness addr ContextRef then None
    else Some (NewErr ("check witness failed, " +:+ hex_EncodeToString key)).

End ontid_utils.

(* ------------------------------------------------------------------ *)
(** ** Vocabulary of the statements *)

Section Vocabulary.

Import neovm neovm_service.

(** [address] is one of the signature addresses the transaction yields. *)
Definition signed_by (this : smartcontract.SmartContract)
  (address : common.Address) : Prop :=
  ∃ addresses,
    types.GetSignatureAddresses
      (smartcontract.Tx (smartcontract.Config_ this)) = Ok addresses
    ∧ address ∈ addresses.

(** [address] is the contract address of the calling context. *)
Definition called_by (this : smartcontract.SmartContract)
  (address : common.Address) : Prop :=
  ∃ c, smartcontract.CallingContext this = Some c
       ∧ context.ContractAddress c = address.

(** The state a service validator leaves: [s1] itself when the service has
    none, or [s1] with the engine as an accepting validator left it. *)
Definition validated (service : Service) (s1 s2 : St) : Prop :=
  (Validator service = None ∧ s2 = s1)
  ∨ (∃ v e', Validator service = Some v
             ∧ v (Engine s1.1) = (None, e')
             ∧ s2 = (with_Engine e' s1.1, s1.2)).

(** The evaluation stack of the service of [s]. *)
Definition stack_of (s : St) : vm.RandomAccessStack :=
  vm.EvaluationStack (Engine s.1).

(** [s] with the evaluation stack of its engine replaced. *)
Definition with_stack (st : vm.RandomAccessStack) (s : St) : St :=
  (with_Engine (vm.with_EvaluationStack st (Engine s.1)) s.1, s.2).

(** The service [NewExecuteEngine] builds for [code], with [st] copied
    onto its evaluation stack. *)
Definition child_service (code : list byte)
  (ref : smartcontract.SmartContract) (st : vm.RandomAccessStack)
  : NeoVmService :=
  mkNeoVmService [] code
    (smartcontract.Tx (smartcontract.Config_ ref))
    (smartcontract.Time (smartcontract.Config_ ref))
    (smartcontract.Height (smartcontract.Config_ ref))
    (smartcontract.BlockHash (smartcontract.Config_ ref))
    (vm.mkExecutionEngine st [] [] "000"%byte "" vm.NONE)
    (smartcontract.PreExec ref).

(** Every answer of [m] relates the state it started from to the state it
    leaves, also when the answer is an error. *)
Definition respects {A} (R : relation St) (m : M A) : Prop :=
  ∀ s r s', m s = Some (r, s') → R s s'.

(** The notifications of the transaction have only been appended to. *)
Definition appending : relation St :=
  λ s s', smartcontract.Notifications s.2
            `prefix_of` smartcontract.Notifications s'.2.

(** The notifications the service holds for its own frame are the same. *)
Definition same_buffer : relation St :=
  λ s s', Notifications s'.1 = Notifications s.1.

(** [R] does not look at the engine, nor at the gas and step counters. *)
Definition engine_blind (R : relation St) : Prop :=
  ∀ s e, R s (with_Engine e s.1, s.2).

Definition counter_blind (R : relation St) : Prop :=
  ∀ s, (∀ gas, R s (s.1, (smartcontract.CheckUseGas gas s.2).2))
       ∧ R s (s.1, (smartcontract.CheckExecStep s.2).2).

(** Every registered service effect respects [R]. *)
Definition services_respect (H : Host) (R : relation St) : Prop :=
  ∀ name service s err s',
    ServiceMap H !! name = Some service →
    Execute service s = (err, s') →
    R s s'.

(** A nested [Invoke], which hands back the [SmartContract] and leaves the
    calling service alone, respects [R]. *)
Definition invoke_respects (R : relation St)
  (invoke : NeoVmService → smartcontract.SmartContract →
            option (result (option vm.StackItem) * St)) : Prop :=
  ∀ s child r child' ref',
    invoke child s.2 = Some (r, (child', ref')) → R s (s.1, ref').

(** No registered service effect takes anything out of the notifications
    of the transaction: it leaves them, or appends. *)
Definition services_append (H : Host) : Prop := services_respect H appending.

(** The notifications the service holds itself are the same, and the log
    of the transaction before and after is related by [Q]. *)
Definition logging (Q : relation (list event.NotifyEventInfo))
  : relation St :=
  λ s s', Notifications s'.1 = Notifications s.1
          ∧ Q (smartcontract.Notifications s.2)
              (smartcontract.Notifications s'.2).


(** The growth the stack-size rule predicts for the opcode just fetched:
    the element count of the top Array or Struct for UNPACK; 1 for the
    push opcodes, which are the opcodes up to and including PUSH16, and
    for DEPTH, DUP, OVER, TUCK; 0 otherwise. *)
Definition predicted_growth (H : Host) (engine : vm.ExecutionEngine) : nat :=
  if op_le (vm.OpCode engine) (PUSH16 H) then 1
  else if op_eq (vm.OpCode engine) (DEPTH H)
          || op_eq (vm.OpCode engine) (DUP H)
          || op_eq (vm.OpCode engine) (OVER H)
          || op_eq (vm.OpCode engine) (TUCK H) then 1
  else if op_eq (vm.OpCode engine) (UNPACK H) then
    match vm.PeekStackItem engine with
    | Some (vm.Array a) => length a
    | Some (vm.Struct a) => length a
    | _ => 0
    end
  else 0.

(** The outcome of a run as the caller sees it: the result and the
    length of the evaluation stack and of the context stack left. *)
Definition observed (out : option (result (option vm.StackItem) * St))
  : option (result (option vm.StackItem) * nat * nat) :=
  match out with
  | Some (r, (this, ref)) =>
      Some (r, length (vm.EvaluationStack (Engine this)),
            length (smartcontract.Contexts ref))
  | None => None
  end.

(** Whatever [m] answers, [m'] answers too: [m'] may only differ from [m]
    where [m] has run out of fuel. *)
Definition finishes_as {A} (m m' : M A) : Prop :=
  ∀ s out, m s = Some out → m' s = Some out.


End Vocabulary.

(* ------------------------------------------------------------------ *)
(** ** Vocabulary of the further statements *)

Section VocabularyOfRuns.

Import neovm neovm_service.

(** A relation on the shared [SmartContract], as a relation on the states
    of a service method. *)
Definition shared (Q : relation smartcontract.SmartContract) : relation St :=
  λ s s', Q s.2 s'.2.

(** An answer of [m] relates the state it started from to the state it
    leaves by [Rok] when it is a value and by [Rerr] when it is an error. *)
Definition outcome_respects {A} (Rok Rerr : relation St) (m : M A) : Prop :=
  ∀ s r s', m s = Some (r, s') →
            match r with Ok _ => Rok s s' | Err _ => Rerr s s' end.

Definition services_outcome_respect (H : Host) (Rok Rerr : relation St)
  : Prop :=
  ∀ name service s err s',
    ServiceMap H !! name = Some service →
    Execute service s = (err, s') →
    match err with None => Rok s s' | Some _ => Rerr s s' end.

(** A nested [Invoke] is entered behind a [NewExecuteEngine] that
    succeeded. *)
Definition invoke_outcome_respects (Rok Rerr : relation St)
  (invoke : NeoVmService → smartcontract.SmartContract →
            option (result (option vm.StackItem) * St)) : Prop :=
  ∀ s child r child' ref',
    smartcontract.checkContexts s.2 = true →
    invoke child s.2 = Some (r, (child', ref')) →
    match r with
    | Ok _ => Rok s (s.1, ref')
    | Err _ => Rerr s (s.1, ref')
    end.

(** The gas left has not grown. *)
Definition gas_spent : relation smartcontract.SmartContract :=
  λ ref ref', (smartcontract.Gas ref' ≤ smartcontract.Gas ref)%N.

(** The context stack is the same, if there was a context at all. *)
Definition contexts_kept : relation smartcontract.SmartContract :=
  λ ref ref', smartcontract.Contexts ref ≠ [] →
              smartcontract.Contexts ref' = smartcontract.Contexts ref.

(** No registered service effect changes the context stack. *)
Definition services_keep_contexts (H : Host) : Prop :=
  services_respect H
    (shared (λ ref ref', smartcontract.Contexts ref'
                         = smartcontract.Contexts ref)).

(** The context [Invoke] pushes for the code of a service. *)
Definition context_of (H : Host) (this : NeoVmService) : context.Context :=
  context.mkContext (AddressFromVmCode H (Code this)) (Code this).

(** A context stack that was not empty is not empty. *)
Definition context_left : relation smartcontract.SmartContract :=
  λ ref ref', smartcontract.Contexts ref ≠ [] →
              smartcontract.Contexts ref' ≠ [].

(** A context stack of 1 to 1025 contexts is at most 1025 deep. *)
Definition depth_bounded : relation smartcontract.SmartContract :=
  λ ref ref', smartcontract.Contexts ref ≠ [] →
              length (smartcontract.Contexts ref) ≤ 1025 →
              length (smartcontract.Contexts ref') ≤ 1025.

(** The step counter has not gone down, and has not passed the limit if it
    was not beyond it. *)
Definition steps_up : relation smartcontract.SmartContract :=
  λ ref ref',
    (smartcontract.ExecStep ref ≤ smartcontract.ExecStep ref')%Z
    ∧ ((smartcontract.ExecStep ref ≤ smartcontract.VM_STEP_LIMIT)%Z →
       (smartcontract.ExecStep ref' ≤ smartcontract.VM_STEP_LIMIT)%Z).

(** The pre-execution flags are as they were, and the steps only went up. *)
Definition preview_kept : relation St :=
  λ s s', PreExec s'.1 = PreExec s.1
          ∧ smartcontract.PreExec s'.2 = smartcontract.PreExec s.2
          ∧ steps_up s.2 s'.2.

(** A state in pre-execution mode with fewer than [k] steps left. *)
Definition preview_within (k : nat) (s : St) : Prop :=
  PreExec s.1 = true
  ∧ smartcontract.PreExec s.2 = true
  ∧ (smartcontract.ExecStep s.2 ≤ smartcontract.VM_STEP_LIMIT)%Z
  ∧ (smartcontract.VM_STEP_LIMIT - smartcontract.ExecStep s.2 < Z.of_nat k)%Z.

(** From a state in pre-execution mode with fewer than [k] steps left, [m]
    answers. *)
Definition answers {A} (k : nat) (m : M A) : Prop :=
  ∀ s, preview_within k s →
       ∃ r s', m s = Some (r, s') ∧ preview_kept s s'.

Definition invoke_answers (k : nat)
  (invoke : NeoVmService → smartcontract.SmartContract →
            option (result (option vm.StackItem) * St)) : Prop :=
  ∀ s child,
    preview_within k s → PreExec child = true →
    ∃ r child' ref',
      invoke child s.2 = Some (r, (child', ref'))
      ∧ preview_kept s (s.1, ref').

End VocabularyOfRuns.


(* ------------------------------------------------------------------ *)
(** ** Further states of the small host *)

Section StatesOfRuns.

Import neovm neovm_service minivm.

(** The [SmartContract] of a transaction that is pre-executed, [left]
    steps below the step limit. *)
Definition preview (left : Z) (deployed : list (list byte)) (gas : N)
  : smartcontract.SmartContract :=
  smartcontract.mkSmartContract
    [] (cache deployed)
    (smartcontract.mkConfig 0 0 [] (types.mkTransaction (Ok [])))
    [] gas (smartcontract.VM_STEP_LIMIT - left) true.

(** Stand-ins for the key primitives the ONT ID contract calls: the keys
    of the small host, the address of a key being the 20 bytes behind its
    tag, and an address parser that answers the zero address next to its
    error. *)
Definition keys : ontid_utils.Keys :=
  ontid_utils.mkKeys
    (list byte)
    DeserializePublicKey
    (λ pk, take 20 (drop 1 pk))
    (λ b, match AddressParseFromBytes b with
          | Ok a => (a, None)
          | Err e => (replicate 20 Byte.x00, Some e)
          end).

End StatesOfRuns.
(* ================================================================== *)
(** * Properties *)

(* ------------------------------------------------------------------ *)
(** ** The context stack (smart_contract.go) *)

Section ContextStack.

Import smartcontract.

Implicit Types (this : SmartContract) (c : context.Context).

Lemma Contexts_with_Contexts cs this : Contexts (with_Contexts cs this) = cs.
Proof. reflexivity. Qed.

Lemma CurrentContext_last this : CurrentContext this = last (Contexts this).
Proof.
  unfold CurrentContext. rewrite last_lookup.
  case_decide as Hlen; [|by rewrite Nat.sub_1_r].
  destruct (Contexts this); [done | simpl in Hlen; lia].
Qed.

Lemma CurrentContext_snoc this pre c :
  Contexts this = pre ++ [c] → CurrentContext this = Some c.
Proof. intros Hcs. by rewrite CurrentContext_last, Hcs, last_snoc. Qed.

Lemma CallingContext_snoc2 this pre a b :
  Contexts this = pre ++ [a; b] → CallingContext this = Some a.
Proof.
  intros Hcs. unfold CallingContext. rewrite Hcs, length_app. simpl.
  case_decide; [lia|].
  replace (length pre + 2 - 2) with (length pre) by lia.
  by rewrite list_lookup_middle.
Qed.

Lemma CallingContext_short this :
  length (Contexts this) < 2 → CallingContext this = None.
Proof. intros. unfold CallingContext. by case_decide. Qed.

Lemma PopContext_snoc2 this pre a b :
  Contexts this = pre ++ [a; b] →
  PopContext this = with_Contexts (pre ++ [a]) this.
Proof.
  intros Hcs. unfold PopContext. rewrite Hcs, length_app. simpl.
  case_decide; [|lia]. f_equal.
  replace (pre ++ [a; b]) with ((pre ++ [a]) ++ [b]) by by rewrite <-app_assoc.
  rewrite take_app_length'; [done|]. rewrite length_app. simpl. lia.
Qed.

Lemma PopContext_short this :
  length (Contexts this) < 2 → PopContext this = this.
Proof. intros. unfold PopContext. case_decide; [lia | done]. Qed.

Lemma EntryContext_PopContext this :
  EntryContext (PopContext this) = EntryContext this.
Proof.
  unfold PopContext. case_decide as Hlen; [|done].
  unfold EntryContext. rewrite Contexts_with_Contexts, length_take.
  repeat case_decide; try lia.
  apply lookup_take_lt. lia.
Qed.

(** Whatever number of pops: the entry context stays. *)
Lemma EntryContext_PopContext_iter n this :
  EntryContext (Nat.iter n PopContext this) = EntryContext this.
Proof.
  induction n as [|n IH]; [done|]. simpl.
  by rewrite EntryContext_PopContext.
Qed.

Lemma Notifications_PopContext this :
  Notifications (PopContext this) = Notifications this.
Proof. unfold PopContext. by case_decide. Qed.

(** C7.  [PopContext] removes the top context exactly when there are at
    least two contexts and changes nothing otherwise, so that
    [Contexts[0]], the entry context, survives any number of pops;
    [EntryContext] is [Contexts[0]], [CurrentContext] the last context and
    [CallingContext] the one before the last, each nil ([None]) when the
    stack is too short for it. *)
Theorem PopContext_keeps_entry_and_accessors this :
  (* PopContext *)
  (∀ pre a b, Contexts this = pre ++ [a; b] →
     Contexts (PopContext this) = pre ++ [a])
  ∧ (length (Contexts this) < 2 → PopContext this = this)
  ∧ (∀ n, EntryContext (Nat.iter n PopContext this) = EntryContext this)
  ∧ (Contexts this ≠ [] → Contexts (PopContext this) ≠ [])
  (* the accessors *)
  ∧ EntryContext this = Contexts this !! 0
  ∧ CurrentContext this = last (Contexts this)
  ∧ (∀ pre a b, Contexts this = pre ++ [a; b] →
       CallingContext this = Some a ∧ CurrentContext this = Some b)
  ∧ (length (Contexts this) < 2 → CallingContext this = None)
  ∧ (Contexts this = [] →
       EntryContext this = None ∧ CurrentContext this = None).
Proof.
  split_and!.
  - intros pre a b Hcs. by rewrite (PopContext_snoc2 _ _ _ _ Hcs).
  - apply PopContext_short.
  - intros n. apply EntryContext_PopContext_iter.
  - intros Hne Hnil.
    pose proof (EntryContext_PopContext this) as Hentry.
    unfold EntryContext in Hentry. rewrite Hnil in Hentry. simpl in Hentry.
    case_decide; [destruct (Contexts this); [done | simpl in *; lia]|].
    destruct (Contexts this); done.
  - unfold EntryContext. case_decide; [|done].
    destruct (Contexts this); [done | simpl in *; lia].
  - apply CurrentContext_last.
  - intros pre a b Hcs. split; [by eapply CallingContext_snoc2|].
    apply (CurrentContext_snoc _ (pre ++ [a])). by rewrite <-app_assoc.
  - apply CallingContext_short.
  - intros Hnil. unfold EntryContext, CurrentContext. by rewrite Hnil.
Qed.

End ContextStack.

(* ------------------------------------------------------------------ *)
(** ** The witness check (smart_contract.go) *)

Section Witness.

Import smartcontract.

Implicit Types (this : SmartContract) (address : common.Address).

Lemma address_in_spec address addresses :
  address_in address addresses = true ↔ address ∈ addresses.
Proof.
  induction addresses as [|v rest IH]; simpl.
  - split; [done | by intros ?%elem_of_nil].
  - case_decide as Heq.
    + subst. split; [intros; left | done].
    + rewrite IH. split; [by right|].
      intros [?|?]%elem_of_cons; [congruence | done].
Qed.

Lemma checkAccountAddress_spec this address :
  checkAccountAddress address this = true ↔ signed_by this address.
Proof.
  unfold checkAccountAddress, signed_by.
  destruct (types.GetSignatureAddresses _) as [addresses|e].
  - rewrite address_in_spec. split; [eauto|]. by intros (? & [= <-] & ?).
  - split; [done | by intros (? & [=] & ?)].
Qed.

Lemma checkContractAddress_spec this address :
  checkContractAddress address this = true ↔ called_by this address.
Proof.
  unfold checkContractAddress, called_by.
  destruct (CallingContext this) as [c|].
  - case_decide; split; eauto; try done.
    intros (? & [= <-] & ?). done.
  - split; [done | by intros (? & [=] & ?)].
Qed.

Lemma CheckWitness_spec this address :
  CheckWitness address this = true ↔
  signed_by this address ∨ called_by this address.
Proof.
  unfold CheckWitness.
  rewrite <-checkAccountAddress_spec, <-checkContractAddress_spec.
  destruct (checkAccountAddress _ _), (checkContractAddress _ _);
    simpl; intuition congruence.
Qed.

(** C2 (as the code has it).  For a 20-byte address, [CheckWitness]
    answers true exactly when the address is among the signature
    addresses of the transaction or is the contract address of the
    calling context, the second from the top.  So inside B called by A
    (contexts [... A B]) the address of A passes; the address of B, the
    current context, fails exactly when it is neither A's address (B
    calling itself) nor a signature address of the transaction. *)
Theorem CheckWitness_iff_signer_or_caller this address :
  common.wf_Address address →
  (CheckWitness address this = true ↔
     signed_by this address ∨ called_by this address)
  ∧ (∀ pre A B, Contexts this = pre ++ [A; B] →
       CheckWitness (context.ContractAddress A) this = true
       ∧ (CheckWitness (context.ContractAddress B) this = false ↔
            context.ContractAddress B ≠ context.ContractAddress A
            ∧ ¬ signed_by this (context.ContractAddress B))).
Proof.
  intros _. split; [apply CheckWitness_spec|].
  intros pre A B Hcs.
  pose proof (CallingContext_snoc2 _ _ _ _ Hcs) as Hcalling.
  split.
  - apply CheckWitness_spec. right. by exists A.
  - rewrite <-not_true_iff_false, CheckWitness_spec.
    unfold called_by. rewrite Hcalling. split.
    + intros Hno. split; [|tauto].
      intros Heq. apply Hno. right. eauto.
    + intros [Hne Hns] [?|(c & [= <-] & ?)]; done.
Qed.

(** C10.  When the transaction fails to yield its signature addresses,
    the error goes no further than [checkAccountAddress], which answers
    false; [CheckWitness] then is the calling-contract check alone. *)
Theorem CheckWitness_signature_addresses_error this address e :
  types.GetSignatureAddresses (Tx (Config_ this)) = Err e →
  checkAccountAddress address this = false
  ∧ CheckWitness address this = checkContractAddress address this
  ∧ (CheckWitness address this = true ↔ called_by this address).
Proof.
  intros Herr.
  assert (checkAccountAddress address this = false) as Hacc
    by (unfold checkAccountAddress; by rewrite Herr).
  split_and!; [done | |].
  - unfold CheckWitness. rewrite Hacc. simpl.
    by destruct (checkContractAddress _ _).
  - rewrite CheckWitness_spec. split; [|by right].
    intros [(? & Hok & _)|?]; [congruence | done].
Qed.

End Witness.

(* ------------------------------------------------------------------ *)
(** ** The key of an ONT ID (utils.go) *)

Section OntID.

Import ontid.

Variable OntIDContractAddress : common.Address.
Hypothesis OntIDContractAddress_wf : common.wf_Address OntIDContractAddress.

Lemma int_of_byte_of_int n : n ≤ 255 → int_of_byte (byte_of_int n) = n.
Proof.
  intros Hn. unfold int_of_byte, byte_of_int.
  rewrite Nat.mod_small by lia.
  destruct (Byte.of_nat n) as [b|] eqn:Hb.
  - simpl. by apply Byte.to_of_nat.
  - apply Byte.of_nat_None_iff in Hb. lia.
Qed.

Lemma encodeID_Ok id :
  1 ≤ length id ≤ 255 →
  encodeID OntIDContractAddress id
  = Ok (OntIDContractAddress ++ [byte_of_int (length id)] ++ id).
Proof.
  intros Hlen. unfold encodeID.
  case_decide; [lia|]. by rewrite <-app_assoc.
Qed.

Lemma decodeID_encoded id :
  length id ≤ 255 →
  decodeID OntIDContractAddress
           (OntIDContractAddress ++ [byte_of_int (length id)] ++ id)
  = Ok id.
Proof.
  intros Hlen. unfold decodeID.
  rewrite !length_app. simpl.
  case_decide; [lia|].
  rewrite list_lookup_middle by done.
  rewrite int_of_byte_of_int by done.
  case_decide; [lia|].
  f_equal. rewrite cons_middle, app_assoc.
  apply drop_app_length'. rewrite length_app. simpl. lia.
Qed.

(** Data as long as the prefix and no longer: the length byte is read out
    of range. *)
Lemma decodeID_prefix_only data :
  length data = length OntIDContractAddress →
  decodeID OntIDContractAddress data = Err (Panic "index out of range").
Proof.
  intros Hlen. unfold decodeID.
  case_decide; [lia|].
  by rewrite lookup_ge_None_2 by lia.
Qed.

(** C9.  For an id of 1 to 255 bytes, [encodeID] is the contract address,
    then the length of the id as one byte, then the id, and [decodeID]
    gives the id back; [encodeID] fails on an id of length 0 or above
    255; [decodeID] fails on data whose length is not what its length
    byte, the one after the address, says (and on data shorter than the
    address). *)
Theorem encodeID_decodeID_roundtrip (id data : list byte) :
  (1 ≤ length id ≤ 255 →
     encodeID OntIDContractAddress id
     = Ok (OntIDContractAddress ++ [byte_of_int (length id)] ++ id)
     ∧ int_of_byte (byte_of_int (length id)) = length id
     ∧ ∀ enc, encodeID OntIDContractAddress id = Ok enc →
              decodeID OntIDContractAddress enc = Ok id)
  ∧ (length id = 0 ∨ 255 < length id →
       encodeID OntIDContractAddress id
       = Err (NewErr "encode ID error: invalid ID length"))
  ∧ (∀ b, data !! 20 = Some b → length data ≠ int_of_byte b + 1 + 20 →
       decodeID OntIDContractAddress data
       = Err (NewErr "decode ID error: invalid data length"))
  ∧ (length data < 20 →
       decodeID OntIDContractAddress data
       = Err (NewErr "decode ID error: invalid data length")).
Proof.
  unfold common.wf_Address, common.ADDR_LEN in OntIDContractAddress_wf.
  split_and!.
  - intros Hlen. split_and!.
    + by apply encodeID_Ok.
    + apply int_of_byte_of_int. lia.
    + intros enc. rewrite encodeID_Ok by done. intros [= <-].
      apply decodeID_encoded. lia.
  - intros Hlen. unfold encodeID. by case_decide.
  - intros b Hb Hlen. unfold decodeID.
    rewrite OntIDContractAddress_wf, Hb.
    apply lookup_lt_Some in Hb.
    case_decide; [done|]. by case_decide.
  - intros Hlen. unfold decodeID. rewrite OntIDContractAddress_wf.
    by case_decide.
Qed.

End OntID.

(* ------------------------------------------------------------------ *)
(** ** SYSCALL (neovm_service.go) *)

Section SystemCallOrder.

Import neovm neovm_service.

Context (H : Host).

Lemma bind_Ok {A B} (m : M A) (k : A → M B) s a s' :
  m s = Some (Ok a, s') → bind m k s = k a s'.
Proof. unfold bind. by intros ->. Qed.

Lemma bind_Err {A B} (m : M A) (k : A → M B) s e s' :
  m s = Some (Err e, s') → bind m k s = Some (Err e, s').
Proof. unfold bind. by intros ->. Qed.

Lemma bind_engine {B} (k : vm.ExecutionEngine → M B) s :
  bind engine k s = k (Engine s.1) s.
Proof. reflexivity. Qed.

Lemma bind_ret {A B} (a : A) (k : A → M B) s : bind (ret a) k s = k a s.
Proof. reflexivity. Qed.

Lemma bind_raise {A B} e (k : A → M B) s :
  bind (raise e) k s = Some (Err e, s).
Proof. reflexivity. Qed.

(** C5.  [SystemCall], once the service name is read: an unknown name
    aborts with the unsupported-service error and nothing else runs;
    otherwise the validator, if there is one, runs first and its error
    aborts; then the price is computed and charged, and when the gas left
    is below the price the call aborts with the insufficient-gas error in
    the state the validator left, gas untouched and the effect not run;
    only then the effect runs, on the state with the gas charged, and its
    error is what the call returns (as the cause of a detail error). *)
Theorem SystemCall_lookup_validate_charge_execute
  (s s1 : St) (serviceName : string) :
  on_OpReader (ReadVarString H (MAX_BYTEARRAY_SIZE H)) s
  = Some (Ok serviceName, s1) →
  (ServiceMap H !! serviceName = None →
     SystemCall H s
     = Some (Err (NewErr ("[SystemCall] the given service is not supported: "
                          +:+ serviceName)), s1))
  ∧ (∀ service, ServiceMap H !! serviceName = Some service →
       (∀ v err e', Validator service = Some v →
          v (Engine s1.1) = (Some err, e') →
          SystemCall H s
          = Some (Err (NewDetailErr err
                         "[SystemCall] there was a service validator error!"),
                  (with_Engine e' s1.1, s1.2)))
       ∧ (∀ s2, validated service s1 s2 →
            (∀ err, GasPrice H (Engine s2.1) serviceName = Err err →
               SystemCall H s = Some (Err err, s2))
            ∧ (∀ price, GasPrice H (Engine s2.1) serviceName = Ok price →
                 ((smartcontract.Gas s2.2 < price)%N →
                    SystemCall H s = Some (Err ERR_GAS_INSUFFICIENT, s2))
                 ∧ ((price ≤ smartcontract.Gas s2.2)%N →
                      SystemCall H s
                      = match Execute service
                                (s2.1, smartcontract.with_Gas
                                         (smartcontract.Gas s2.2 - price) s2.2)
                        with
                        | (Some err, s4) =>
                            Some (Err (NewDetailErr err
                                    "[SystemCall] service execution error!"),
                                  s4)
                        | (None, s4) => Some (Ok tt, s4)
                        end
                      ∧ ∀ err s4,
                          Execute service
                            (s2.1, smartcontract.with_Gas
                                     (smartcontract.Gas s2.2 - price) s2.2)
                          = (Some err, s4) →
                          ∃ e, SystemCall H s = Some (Err e, s4)
                               ∧ root_cause e = root_cause err)))).
Proof.
  intros Hread. unfold SystemCall. rewrite (bind_Ok _ _ _ _ _ Hread).
  split.
  { by intros ->. }
  intros service ->. split.
  { intros v err e' -> Hv. unfold bind, wrap_err, on_engine. by rewrite Hv. }
  intros s2 Hs2.
  assert ((match Validator service with
           | Some validator =>
               wrap_err (λ err, NewDetailErr err
                           "[SystemCall] there was a service validator error!")
                        (on_engine validator)
           | None => ret ()
           end) s1 = Some (Ok tt, s2)) as Hval.
  { destruct Hs2 as [[-> ->]|(v & e' & -> & Hv & ->)]; [done|].
    unfold wrap_err, on_engine. by rewrite Hv. }
  rewrite (bind_Ok _ _ _ _ _ Hval), bind_engine.
  split.
  { intros err Hp. by rewrite Hp. }
  intros price Hp. rewrite Hp. cbn [of_result]. rewrite bind_ret.
  unfold bind, on_ref, smartcontract.CheckUseGas.
  split.
  { intros Hlt. case_decide; [|lia]. simpl. by destruct s2. }
  intros Hle. case_decide; [lia|]. simpl. unfold wrap_err.
  split.
  - by destruct (Execute service _) as [[err|] s4].
  - intros err s4 Hex. rewrite Hex. eauto.
Qed.

End SystemCallOrder.

(* ------------------------------------------------------------------ *)
(** ** VERIFY and APPCALL (neovm_service.go) *)

Section Opcodes.

Import neovm neovm_service.

Context (H : Host).

Lemma stack_of_with_stack st s : stack_of (with_stack st s) = st.
Proof. reflexivity. Qed.

Lemma with_stack_with_stack st st' s :
  with_stack st' (with_stack st s) = with_stack st' s.
Proof. reflexivity. Qed.

Lemma PopByteArray_cons s x rest :
  stack_of s = x :: rest →
  PopByteArray H s = Some (GetByteArray H x, with_stack rest s).
Proof.
  unfold stack_of, PopByteArray. rewrite bind_engine. intros ->.
  unfold bind, set_engine. by destruct (GetByteArray H x).
Qed.

Lemma PopByteArray_total s : PopByteArray H s ≠ None.
Proof.
  destruct (stack_of s) as [|x rest] eqn:Hst.
  - unfold stack_of in Hst. unfold PopByteArray. rewrite bind_engine, Hst. done.
  - by rewrite (PopByteArray_cons _ _ _ Hst).
Qed.

(** [Invoke_VERIFY] on a stack of at least three items, step by step. *)
Lemma Invoke_VERIFY_cons3 s x1 x2 x3 rest :
  stack_of s = x1 :: x2 :: x3 :: rest →
  Invoke_VERIFY H s =
  match GetByteArray H x1 with
  | Err e => Some (Err e, with_stack (x2 :: x3 :: rest) s)
  | Ok pubKey =>
      match DeserializePublicKey H pubKey with
      | Err e => Some (Err e, with_stack (x2 :: x3 :: rest) s)
      | Ok key =>
          match GetByteArray H x2 with
          | Err e => Some (Err e, with_stack (x3 :: rest) s)
          | Ok sig =>
              match GetByteArray H x3 with
              | Err e => Some (Err e, with_stack rest s)
              | Ok data =>
                  Some (Ok tt,
                        with_stack
                          (vm.Boolean
                             (if signature_Verify H key data sig is None
                              then true else false) :: rest) s)
              end
          end
      end
  end.
Proof.
  intros Hst. unfold Invoke_VERIFY. rewrite bind_engine.
  unfold vm.EvaluationStackCount, vm.Count. fold (stack_of s). rewrite Hst.
  case_decide as Hlen; [simpl in Hlen; lia|].
  unfold bind at 1. rewrite (PopByteArray_cons _ _ _ Hst).
  destruct (GetByteArray H x1) as [pubKey|e]; [|done].
  unfold bind at 1.
  destruct (DeserializePublicKey H pubKey) as [key|e]; [|done].
  cbn [of_result ret].
  unfold bind at 1.
  rewrite (PopByteArray_cons (with_stack (x2 :: x3 :: rest) s) x2 (x3 :: rest))
    by done.
  destruct (GetByteArray H x2) as [sig|e]; [|done].
  unfold bind at 1.
  rewrite (PopByteArray_cons (with_stack (x3 :: rest) _) x3 rest) by done.
  destruct (GetByteArray H x3) as [data|e]; [|done].
  rewrite bind_engine.
  by destruct (signature_Verify H key data sig).
Qed.

(** C8 (as the code has it).  VERIFY needs three items on the evaluation
    stack; it pops the public key, the signature and the data and pushes
    a Boolean, false when the signature does not verify: a bad signature
    never aborts.  It aborts when there are fewer than three items, when
    one of the three popped items cannot be read as bytes, or when the
    public-key bytes fail to deserialize, and in no other case. *)
Theorem Invoke_VERIFY_pushes_Boolean_or_aborts (s : St) :
  (length (stack_of s) < 3 →
     Invoke_VERIFY H s
     = Some (Err (NewErr "[VERIFY] too few input parameters"), s))
  ∧ (∀ x1 x2 x3 rest pubKey key sig data,
       stack_of s = x1 :: x2 :: x3 :: rest →
       GetByteArray H x1 = Ok pubKey →
       DeserializePublicKey H pubKey = Ok key →
       GetByteArray H x2 = Ok sig →
       GetByteArray H x3 = Ok data →
       Invoke_VERIFY H s
       = Some (Ok tt,
               with_stack
                 (vm.Boolean (if signature_Verify H key data sig is None
                              then true else false) :: rest) s))
  ∧ (∀ e s', Invoke_VERIFY H s = Some (Err e, s') →
       length (stack_of s) < 3
       ∨ ∃ x1 x2 x3 rest,
           stack_of s = x1 :: x2 :: x3 :: rest
           ∧ (is_Ok (GetByteArray H x1) = false
              ∨ (∃ pubKey, GetByteArray H x1 = Ok pubKey
                           ∧ is_Ok (DeserializePublicKey H pubKey) = false)
              ∨ is_Ok (GetByteArray H x2) = false
              ∨ is_Ok (GetByteArray H x3) = false))
  ∧ Invoke_VERIFY H s ≠ None.
Proof.
  split_and!.
  - intros Hlen. unfold Invoke_VERIFY. rewrite bind_engine.
    unfold vm.EvaluationStackCount, vm.Count. fold (stack_of s).
    by case_decide.
  - intros x1 x2 x3 rest pubKey key sig data Hst H1 Hk H2 H3.
    by rewrite (Invoke_VERIFY_cons3 _ _ _ _ _ Hst), H1, Hk, H2, H3.
  - intros e s' Hrun.
    destruct (stack_of s) as [|x1 [|x2 [|x3 rest]]] eqn:Hst;
      [left; simpl; lia..|right].
    exists x1, x2, x3, rest. split; [done|].
    rewrite (Invoke_VERIFY_cons3 _ _ _ _ _ Hst) in Hrun.
    destruct (GetByteArray H x1) as [pubKey|]; [|by left].
    destruct (DeserializePublicKey H pubKey) as [key|] eqn:Hk;
      [|right; left; exists pubKey; by rewrite Hk].
    destruct (GetByteArray H x2) as [sig|]; [|by right; right; left].
    destruct (GetByteArray H x3) as [data|]; [|by right; right; right].
    done.
  - destruct (stack_of s) as [|x1 [|x2 [|x3 rest]]] eqn:Hst.
    1-3: unfold Invoke_VERIFY; rewrite bind_engine;
         unfold vm.EvaluationStackCount, vm.Count; fold (stack_of s);
         rewrite Hst; (case_decide; [done | simpl in *; lia]).
    rewrite (Invoke_VERIFY_cons3 _ _ _ _ _ Hst).
    by repeat case_match.
Qed.

Lemma NewExecuteEngine_Ok code ref :
  length (smartcontract.Contexts ref) ≤ smartcontract.MAX_EXECUTE_ENGINE →
  smartcontract.NewExecuteEngine code ref = Ok (child_service code ref []).
Proof.
  intros Hlen. unfold smartcontract.NewExecuteEngine, smartcontract.checkContexts.
  case_decide; [lia | done].
Qed.

Lemma NewExecuteEngine_Err code ref :
  smartcontract.MAX_EXECUTE_ENGINE < length (smartcontract.Contexts ref) →
  smartcontract.NewExecuteEngine code ref
  = Err (Errorf "engine over max limit!" None).
Proof.
  intros Hlen. unfold smartcontract.NewExecuteEngine, smartcontract.checkContexts.
  case_decide; [done | lia].
Qed.

(** C6.  APPCALL reads 20 bytes after the opcode.  If they are not all
    zero they are the target; if they are, the target is popped from the
    evaluation stack and must be 20 bytes long.  A target with no
    contract in the cache aborts the execution.  Otherwise the child
    service starts with a copy of the whole evaluation stack of the
    parent (as the pop left it), and when the child is done its result,
    if it has one, is pushed on the evaluation stack of the parent; that
    result is the top of the child's evaluation stack. *)
Theorem Invoke_APPCALL_target_stack_result :
  (* the target *)
  (∀ s address s1,
     wrap_err (λ err, Errorf "[Appcall] read contract address error: %v"
                             (Some err))
              (on_OpReader (ReadBytes H 20)) s = Some (Ok address, s1) →
     (address ≠ BYTE_ZERO_20 →
        Invoke_APPCALL_address H s = Some (Ok address, s1))
     ∧ (address = BYTE_ZERO_20 →
          (stack_of s1 = [] →
             ∃ e, Invoke_APPCALL_address H s = Some (Err e, s1))
          ∧ ∀ x rest popped,
              stack_of s1 = x :: rest → GetByteArray H x = Ok popped →
              (length popped = 20 →
                 Invoke_APPCALL_address H s
                 = Some (Ok popped, with_stack rest s1))
              ∧ (length popped ≠ 20 →
                   ∃ e, Invoke_APPCALL_address H s
                        = Some (Err e, with_stack rest s1))))
  (* the call *)
  ∧ (∀ s target s1 addr invoke,
       Invoke_APPCALL_address H s = Some (Ok target, s1) →
       AddressParseFromBytes H target = Ok addr →
       (storage.GetContract (smartcontract.CacheDB s1.2) addr = Ok None →
          Invoke_APPCALL H invoke s = Some (Err CONTRACT_NOT_EXIST, s1))
       ∧ (∀ dep,
            storage.GetContract (smartcontract.CacheDB s1.2) addr
            = Ok (Some dep) →
            length (smartcontract.Contexts s1.2)
            ≤ smartcontract.MAX_EXECUTE_ENGINE →
            Invoke_APPCALL H invoke s
            = match invoke (child_service (storage.Code dep) s1.2
                                          (stack_of s1)) s1.2 with
              | None => None
              | Some (Err e, (_, ref')) => Some (Err e, (s1.1, ref'))
              | Some (Ok None, (_, ref')) => Some (Ok tt, (s1.1, ref'))
              | Some (Ok (Some result), (_, ref')) =>
                  Some (Ok tt,
                        with_stack (result :: stack_of s1) (s1.1, ref'))
              end))
  (* the result of the child *)
  ∧ (∀ loop this ref result s',
       Invoke_with H loop this ref = Some (Ok result, s') →
       result = head (stack_of s')).
Proof.
  split_and!.
  - intros s address s1 Hread. unfold Invoke_APPCALL_address.
    rewrite (bind_Ok _ _ _ _ _ Hread). split.
    + intros Hne. by case_decide.
    + intros Hz. case_decide; [|done]. rewrite bind_engine.
      unfold vm.EvaluationStackCount, vm.Count. fold (stack_of s1).
      split.
      * intros ->. case_decide; [|simpl in *; lia]. eauto.
      * intros x rest popped Hst Hx. rewrite Hst.
        case_decide as Hlen; [simpl in Hlen; lia|].
        unfold bind, wrap_err.
        rewrite (PopByteArray_cons _ _ _ Hst), Hx.
        split; intros Hl; case_decide; try done. eauto.
  - intros s target s1 addr invoke Htarget Hparse. unfold Invoke_APPCALL.
    rewrite (bind_Ok _ _ _ _ _ Htarget), Hparse. cbn [of_result].
    rewrite bind_ret. split.
    + intros Hnone. unfold bind, getContract. by rewrite Hnone.
    + intros dep Hdep Hdepth. unfold bind at 1, getContract at 1.
      rewrite Hdep. unfold bind at 1.
      rewrite (NewExecuteEngine_Ok _ _ Hdepth), bind_engine.
      unfold bind at 1. unfold vm.CopyTo. cbn [Engine child_service].
      cbn [vm.EvaluationStack]. rewrite app_nil_r.
      change (vm.with_EvaluationStack (vm.EvaluationStack (Engine s1.1))
                (vm.mkExecutionEngine [] [] [] "000" "" vm.NONE))
        with (vm.mkExecutionEngine (stack_of s1) [] [] "000" "" vm.NONE).
      change (with_Engine _ (child_service (storage.Code dep) s1.2 []))
        with (child_service (storage.Code dep) s1.2 (stack_of s1)).
      destruct (invoke _ _) as [[[[result|]|e] [this' ref']]|]; done.
  - intros loop this ref result s'. unfold Invoke_with.
    case_decide; [done|].
    destruct (loop _) as [[[[]|e] [this2 ref2]]|]; [|done..].
    unfold vm.Count, vm.Peek.
    case_decide as Hnil; intros [= <- <-]; unfold stack_of; simpl.
    + by destruct (vm.EvaluationStack _).
    + destruct (vm.EvaluationStack _); [done | simpl in Hnil; lia].
Qed.

End Opcodes.

(* ------------------------------------------------------------------ *)
(** ** Notifications (neovm_service.go, smart_contract.go) *)

Section Respects.

Import neovm neovm_service.

Context (H : Host) (R : relation St) `{!PreOrder R}.

Hypothesis R_engine : engine_blind R.
Hypothesis R_counter : counter_blind R.

Lemma respects_ret {A} (a : A) : respects R (ret a).
Proof. by intros s r s' [= <- <-]. Qed.

Lemma respects_raise {A} e : respects R (@raise A e).
Proof. by intros s r s' [= <- <-]. Qed.

Lemma respects_bind {A B} (m : M A) (k : A → M B) :
  respects R m → (∀ a, respects R (k a)) → respects R (bind m k).
Proof.
  intros Hm Hk s r s'. unfold bind.
  destruct (m s) as [[[a|e] s1]|] eqn:Hms; [|intros [= <- <-]; eauto|done].
  intros Hks. etrans; [by eapply Hm | by eapply Hk].
Qed.

Lemma respects_engine : respects R engine.
Proof. by intros s r s' [= <- <-]. Qed.

Lemma respects_this : respects R (λ s : St, Some (Ok s.1, s)).
Proof. by intros s r s' [= <- <-]. Qed.

Lemma respects_set_engine e : respects R (set_engine e).
Proof. intros s r s' [= <- <-]. apply R_engine. Qed.

Lemma respects_on_engine f : respects R (on_engine f).
Proof.
  intros s r s'. unfold on_engine.
  destruct (f _) as [[err|] e']; intros [= <- <-]; apply R_engine.
Qed.

Lemma respects_CheckUseGas gas :
  respects R (on_ref (smartcontract.CheckUseGas gas)).
Proof.
  intros s r s'. unfold on_ref.
  pose proof (proj1 (R_counter s) gas) as HR.
  destruct (smartcontract.CheckUseGas gas s.2). by intros [= <- <-].
Qed.

Lemma respects_CheckExecStep :
  respects R (on_ref smartcontract.CheckExecStep).
Proof.
  intros s r s'. unfold on_ref.
  pose proof (proj2 (R_counter s)) as HR.
  destruct (smartcontract.CheckExecStep s.2). by intros [= <- <-].
Qed.

Lemma respects_wrap_err {A} w (m : M A) :
  respects R m → respects R (wrap_err w m).
Proof.
  intros Hm s r s'. unfold wrap_err.
  destruct (m s) as [[[a|e] s1]|] eqn:Hms; intros [= <- <-]; eauto.
Qed.

Lemma respects_of_result {A} (r : result A) : respects R (of_result r).
Proof. destruct r; [apply respects_ret | apply respects_raise]. Qed.

Lemma respects_getContract address : respects R (getContract address).
Proof.
  intros s r s'. unfold getContract.
  repeat case_match; by intros [= <- <-].
Qed.

Lemma respects_NewExecuteEngine code :
  respects R (λ s : St, Some (smartcontract.NewExecuteEngine code s.2, s)).
Proof. by intros s r s' [= <- <-]. Qed.

Create HintDb respects discriminated.
Hint Resolve respects_ret respects_raise respects_engine respects_this
  respects_set_engine respects_on_engine respects_CheckUseGas
  respects_CheckExecStep respects_of_result respects_getContract
  respects_NewExecuteEngine : respects.

(** Split a computation along its binds and branches. *)
Ltac respects_step :=
  first
    [ assumption
    | apply respects_bind; [|intros ?]
    | apply respects_wrap_err
    | progress eauto with respects
    | case_decide
    | case_match ].

Lemma respects_PopByteArray : respects R (PopByteArray H).
Proof. unfold PopByteArray. repeat respects_step. Qed.

Lemma respects_on_OpReader {A} (f : vm.ExecutionContext → result A * _) :
  respects R (on_OpReader f).
Proof. unfold on_OpReader. repeat respects_step. Qed.

Hint Resolve respects_PopByteArray respects_on_OpReader : respects.

Lemma respects_Invoke_VERIFY : respects R (Invoke_VERIFY H).
Proof. unfold Invoke_VERIFY. repeat respects_step. Qed.

Lemma respects_SystemCall : services_respect H R → respects R (SystemCall H).
Proof.
  intros Hsvc. unfold SystemCall. repeat respects_step.
  intros st r st' Hrun.
  destruct (Execute _ st) as [err st1] eqn:Hex.
  assert (st' = st1) as -> by (destruct err; by simplify_eq).
  eauto.
Qed.

Lemma respects_Invoke_APPCALL_address :
  respects R (Invoke_APPCALL_address H).
Proof. unfold Invoke_APPCALL_address. repeat respects_step. Qed.

Lemma respects_Invoke_APPCALL invoke :
  invoke_respects R invoke → respects R (Invoke_APPCALL H invoke).
Proof.
  intros Hinv. pose proof respects_Invoke_APPCALL_address.
  unfold Invoke_APPCALL.
  do 5 (apply respects_bind; [by eauto with respects | intros ?]).
  apply respects_bind; [|intros ?; repeat respects_step].
  intros s r s' Hrun.
  destruct (invoke _ _) as [[r1 [this1 ref1]]|] eqn:Hi; [|done].
  simplify_eq. exact (Hinv _ _ _ _ _ Hi).
Qed.

Lemma respects_Invoke_default : respects R (Invoke_default H).
Proof. unfold Invoke_default. repeat respects_step. Qed.

Lemma respects_Invoke_gas : respects R (Invoke_gas H).
Proof. unfold Invoke_gas. repeat respects_step. Qed.

Lemma respects_Invoke_switch invoke :
  services_respect H R → invoke_respects R invoke →
  respects R (Invoke_switch H invoke).
Proof.
  intros Hsvc Hinv. unfold Invoke_switch.
  pose proof respects_Invoke_VERIFY. pose proof (respects_SystemCall Hsvc).
  pose proof (respects_Invoke_APPCALL _ Hinv).
  pose proof respects_Invoke_default.
  repeat respects_step.
Qed.

Lemma respects_Invoke_turn invoke :
  services_respect H R → invoke_respects R invoke →
  respects R (Invoke_turn H invoke).
Proof.
  intros Hsvc Hinv. unfold Invoke_turn.
  pose proof respects_Invoke_gas.
  pose proof (respects_Invoke_switch _ Hsvc Hinv).
  repeat respects_step.
Qed.




End Respects.

Section Notifications.

Import neovm neovm_service.

Context (H : Host).

#[local] Instance appending_preorder : PreOrder appending.
Proof.
  split.
  - intros s. by unfold appending.
  - intros s1 s2 s3. unfold appending. intros H12 H23. by etrans.
Qed.

#[local] Instance same_buffer_preorder : PreOrder same_buffer.
Proof.
  split.
  - intros s. by unfold same_buffer.
  - intros s1 s2 s3. unfold same_buffer. congruence.
Qed.

Lemma appending_engine_blind : engine_blind appending.
Proof. intros s e. unfold appending. by simpl. Qed.

Lemma appending_counter_blind : counter_blind appending.
Proof.
  intros s. unfold appending, smartcontract.CheckUseGas,
    smartcontract.CheckExecStep.
  split; [intros gas|]; by case_decide; simpl.
Qed.

Lemma same_buffer_engine_blind : engine_blind same_buffer.
Proof. intros s e. unfold same_buffer. by simpl. Qed.

Lemma same_buffer_counter_blind : counter_blind same_buffer.
Proof. intros s. unfold same_buffer. by split. Qed.

(** The caller of an APPCALL holds the same notifications for its frame
    afterwards, whatever the callee did. *)
Lemma Invoke_APPCALL_same_buffer invoke :
  respects same_buffer (Invoke_APPCALL H invoke).
Proof.
  apply (respects_Invoke_APPCALL H same_buffer same_buffer_engine_blind).
  intros s child r child' ref' _. by unfold same_buffer.
Qed.

(** What [Invoke] does to the notifications of the transaction, given its
    loop only appends: on success the buffer of the service goes on the
    end; in any case nothing is taken out. *)
Lemma Invoke_with_notifications loop this ref r this' ref' :
  respects appending loop →
  Invoke_with H loop this ref = Some (r, (this', ref')) →
  match r with
  | Ok _ => ∃ nested, smartcontract.Notifications ref'
                      = smartcontract.Notifications ref ++ nested
                        ++ Notifications this'
  | Err _ => smartcontract.Notifications ref
               `prefix_of` smartcontract.Notifications ref'
  end.
Proof.
  intros Hloop. unfold Invoke_with.
  case_decide; [by intros [= <- <- <-]|].
  destruct (loop _) as [[[[]|e] [this2 ref2]]|] eqn:Hrun; [| |done].
  - apply Hloop in Hrun. destruct Hrun as [nested Hn]. simpl in Hn.
    intros Hret.
    assert (∃ v, r = Ok v ∧ this' = this2 ∧
            ref' = smartcontract.PushNotifications (Notifications this2)
                     (smartcontract.PopContext ref2)) as (v & -> & -> & ->)
      by (case_decide; simplify_eq; eauto).
    exists nested. simpl.
    by rewrite Notifications_PopContext, Hn, <-app_assoc.
  - apply Hloop in Hrun. by intros [= <- <- <-].
Qed.

Lemma invoke_respects_Invoke_with loop :
  respects appending loop → invoke_respects appending (Invoke_with H loop).
Proof.
  intros Hloop s child r child' ref' Hrun.
  pose proof (Invoke_with_notifications _ _ _ _ _ _ Hloop Hrun) as Hn.
  unfold appending. simpl.
  destruct r; [|done]. destruct Hn as [nested Hn]. rewrite Hn.
  by eexists.
Qed.

Lemma appending_Invoke_loop fuel :
  services_append H → respects appending (Invoke_loop H fuel).
Proof.
  intros Hsvc. induction fuel as [|fuel IH]; [done|]. simpl.
  apply (respects_bind appending).
  - apply (respects_Invoke_turn H appending appending_engine_blind
             appending_counter_blind); [done|].
    by apply invoke_respects_Invoke_with.
  - intros []; [done | apply (respects_ret appending)].
Qed.

(** *** The log of the transaction

    A relation between the log before and after that every service effect
    keeps is kept by [Invoke], when the services hold no notifications of
    their own: nothing but the effects writes to the log. *)
Section Log.

Context (Q : relation (list event.NotifyEventInfo)) `{!PreOrder Q}.

#[local] Instance logging_preorder : PreOrder (logging Q).
Proof.
  split.
  - intros s. by unfold logging.
  - intros s1 s2 s3 [Hb12 HQ12] [Hb23 HQ23]. unfold logging.
    split; [congruence | by etrans].
Qed.





End Log.

End Notifications.

(* ------------------------------------------------------------------ *)
(** ** Fuel

    A run that finishes within some fuel finishes the same way within any
    larger fuel: the answer of [Invoke] does not depend on the fuel it is
    given, once that is enough. *)

Section Fuel.

Import neovm neovm_service.

Context (H : Host).

Lemma finishes_as_refl {A} (m : M A) : finishes_as m m.
Proof. by intros s out. Qed.

Lemma finishes_as_bind {A B} (m m' : M A) (k k' : A → M B) :
  finishes_as m m' → (∀ a, finishes_as (k a) (k' a)) →
  finishes_as (bind m k) (bind m' k').
Proof.
  intros Hm Hk s out. unfold bind.
  destruct (m s) as [[[a|e] s1]|] eqn:Hms; [| |done].
  - rewrite (Hm _ _ Hms). apply Hk.
  - by rewrite (Hm _ _ Hms).
Qed.

Lemma finishes_as_Invoke_APPCALL invoke invoke' :
  (∀ this ref out, invoke this ref = Some out → invoke' this ref = Some out) →
  finishes_as (Invoke_APPCALL H invoke) (Invoke_APPCALL H invoke').
Proof.
  intros Hinv. unfold Invoke_APPCALL.
  repeat (apply finishes_as_bind; [apply finishes_as_refl | intros ?]).
  apply finishes_as_bind; [|intros ?; apply finishes_as_refl].
  intros s out.
  destruct (invoke _ _) as [[r [this1 ref1]]|] eqn:Hi; [|done].
  by rewrite (Hinv _ _ _ Hi).
Qed.

Lemma finishes_as_Invoke_switch invoke invoke' :
  (∀ this ref out, invoke this ref = Some out → invoke' this ref = Some out) →
  finishes_as (Invoke_switch H invoke) (Invoke_switch H invoke').
Proof.
  intros Hinv. pose proof (finishes_as_Invoke_APPCALL _ _ Hinv).
  unfold Invoke_switch.
  apply finishes_as_bind; [apply finishes_as_refl | intros e].
  repeat case_match; (assumption || apply finishes_as_refl).
Qed.

Lemma finishes_as_Invoke_turn invoke invoke' :
  (∀ this ref out, invoke this ref = Some out → invoke' this ref = Some out) →
  finishes_as (Invoke_turn H invoke) (Invoke_turn H invoke').
Proof.
  intros Hinv. pose proof (finishes_as_Invoke_switch _ _ Hinv).
  unfold Invoke_turn.
  repeat first
    [ assumption
    | apply finishes_as_refl
    | apply finishes_as_bind; [|intros ?]
    | case_decide
    | case_match ].
Qed.

Lemma finishes_as_Invoke_with loop loop' this ref out :
  finishes_as loop loop' →
  Invoke_with H loop this ref = Some out →
  Invoke_with H loop' this ref = Some out.
Proof.
  intros Hloop. unfold Invoke_with. case_decide; [done|].
  destruct (loop _) as [[r s1]|] eqn:Hrun; [|done].
  by rewrite (Hloop _ _ Hrun).
Qed.

Lemma Invoke_loop_S fuel :
  finishes_as (Invoke_loop H fuel) (Invoke_loop H (S fuel)).
Proof.
  induction fuel as [|fuel IH]; [done|].
  change (finishes_as
            (bind (Invoke_turn H (Invoke_with H (Invoke_loop H fuel)))
                  (λ again : bool,
                     if again then Invoke_loop H fuel else ret tt))
            (bind (Invoke_turn H (Invoke_with H (Invoke_loop H (S fuel))))
                  (λ again : bool,
                     if again then Invoke_loop H (S fuel) else ret tt))).
  apply finishes_as_bind.
  - apply finishes_as_Invoke_turn. intros this ref out.
    by apply finishes_as_Invoke_with.
  - intros []; [exact IH | apply finishes_as_refl].
Qed.

Lemma Invoke_fuel_mono fuel fuel' this ref out :
  fuel ≤ fuel' →
  Invoke H fuel this ref = Some out →
  Invoke H fuel' this ref = Some out.
Proof.
  induction 1 as [|fuel' _ IH]; [done|].
  intros Hrun. unfold Invoke.
  eapply finishes_as_Invoke_with; [apply Invoke_loop_S | by apply IH].
Qed.

End Fuel.

(* ------------------------------------------------------------------ *)
(** ** The stack-size rule (neovm_service.go) *)

Section StackSize.

Import neovm neovm_service.

Context (H : Host).

Lemma op_le_lt_or_eq a b : op_le a b = op_lt a b || op_eq a b.
Proof.
  unfold op_le, op_lt, op_eq.
  destruct (decide (a = b)) as [->|Hne].
  - rewrite bool_decide_eq_true_2 by done.
    rewrite N.leb_refl. by rewrite orb_true_r.
  - rewrite bool_decide_eq_false_2 by done. rewrite orb_false_r.
    assert (Byte.to_N a ≠ Byte.to_N b) as Hn.
    { intros Heq. apply Hne.
      apply (inj Some). by rewrite <-!Byte.of_to_N, Heq. }
    destruct (N.leb_spec (Byte.to_N a) (Byte.to_N b)),
             (N.ltb_spec (Byte.to_N a) (Byte.to_N b)); try done; lia.
Qed.

(** Away from PUSH16 (and from UNPACK on an empty stack, which fails
    outright) the pre-charge of [checkStackSize] is the predicted growth. *)
Lemma precharge_predicted_growth e :
  vm.OpCode e ≠ PUSH16 H →
  precharge H e = Some (predicted_growth H e)
  ∨ (precharge H e = None ∧ vm.EvaluationStack e = []).
Proof.
  intros Hne. unfold precharge, predicted_growth.
  rewrite op_le_lt_or_eq.
  replace (op_eq (vm.OpCode e) (PUSH16 H)) with false
    by (unfold op_eq; by rewrite bool_decide_eq_false_2).
  rewrite orb_false_r.
  destruct (op_lt _ _); [by left|].
  destruct (_ || _); [by left|].
  destruct (op_eq _ (UNPACK H)); [|by left].
  unfold vm.Count, vm.PeekStackItem, vm.Peek.
  case_decide as Hnil.
  - right. split; [done|]. by destruct (vm.EvaluationStack e).
  - left. by repeat case_match.
Qed.

Lemma precharge_PUSH16 e :
  vm.OpCode e = PUSH16 H →
  PUSH16 H ∉ [DEPTH H; DUP H; OVER H; TUCK H; UNPACK H] →
  precharge H e = Some 0 ∧ predicted_growth H e = 1.
Proof.
  intros Hop Hnot. unfold precharge, predicted_growth. rewrite Hop.
  replace (op_lt (PUSH16 H) (PUSH16 H)) with false
    by (unfold op_lt; by rewrite N.ltb_irrefl).
  replace (op_le (PUSH16 H) (PUSH16 H)) with true
    by (unfold op_le; by rewrite N.leb_refl).
  unfold op_eq.
  rewrite !bool_decide_eq_false_2; [done|..];
    intros Heq; apply Hnot; rewrite <-Heq at 1; set_solver.
Qed.

Lemma checkStackSize_precharged e size :
  precharge H e = Some size →
  checkStackSize H e = true ↔
  size + length (vm.EvaluationStack e) + length (vm.AltStack e)
  ≤ DUPLICATE_STACK_SIZE.
Proof.
  intros Hp. unfold checkStackSize, vm.Count. rewrite Hp.
  case_decide; split; (done || lia).
Qed.

(** Where the check sits in a turn of the loop: behind [ExecuteCode], and
    only while the instruction pointer is inside the code. *)
Lemma Invoke_turn_after_ExecuteCode invoke s s0 c e1 c1 :
  (if PreExec s.1 then on_ref smartcontract.CheckExecStep else ret true) s
  = Some (Ok true, s0) →
  vm.Context (Engine s0.1) = Some c →
  vm.InstructionPointer c < length (vm.Code c) →
  ExecuteCode H (Engine s0.1) = (None, e1) →
  vm.Context e1 = Some c1 →
  Invoke_turn H invoke s =
  if decide (vm.InstructionPointer c1 < length (vm.Code c1)
             ∧ checkStackSize H e1 = false)
  then Some (Err ERR_CHECK_STACK_SIZE, (with_Engine e1 s0.1, s0.2))
  else bind (Invoke_gas H)
            (λ _, bind (Invoke_switch H invoke) (λ _, ret true))
            (with_Engine e1 s0.1, s0.2).
Proof.
  intros Hstep Hc Hip Hfetch Hc1. unfold Invoke_turn.
  unfold bind at 1. unfold bind at 1. rewrite Hstep. cbn [negb].
  rewrite bind_engine, Hc. case_decide; [lia|].
  unfold bind at 1, on_engine at 1. rewrite Hfetch.
  rewrite bind_engine. cbn [fst Engine with_Engine]. rewrite Hc1.
  unfold bind at 1.
  destruct (decide (vm.InstructionPointer c1 < length (vm.Code c1)))
    as [Hin|Hout].
  - destruct (checkStackSize H e1) eqn:Hcheck.
    + rewrite decide_False by (intros [_ ?]; done). done.
    + rewrite decide_True by done. done.
  - rewrite decide_False by (intros [? _]; done). done.
Qed.

End StackSize.

(* ------------------------------------------------------------------ *)
(** ** Runs of the small host *)

Import neovm neovm_service minivm.

(** What the [Runtime.Notify] of the small host does: nothing to the
    notifications a service holds itself, and to the log of the
    transaction one event at the end, that of the current context with
    the payload popped, or nothing when it fails. *)
Lemma RuntimeNotify_appends s err s' :
  RuntimeNotify s = (err, s') →
  Notifications s'.1 = Notifications s.1
  ∧ match err with
    | Some _ =>
        smartcontract.Notifications s'.2 = smartcontract.Notifications s.2
    | None =>
        ∃ c item,
          smartcontract.CurrentContext s.2 = Some c
          ∧ head (vm.EvaluationStack (Engine s.1)) = Some item
          ∧ smartcontract.Notifications s'.2
            = smartcontract.Notifications s.2
              ++ [event.mkNotifyEventInfo (context.ContractAddress c) item]
    end.
Proof.
  destruct s as [this ref]. unfold RuntimeNotify. simpl.
  destruct (vm.EvaluationStack (Engine this)) as [|item rest];
    [by intros [= <- <-]|].
  destruct (smartcontract.CurrentContext ref) as [c|];
    [|by intros [= <- <-]].
  intros [= <- <-]. split; [done|]. by exists c, item.
Qed.

Lemma minivm_services_logging (Q : relation (list event.NotifyEventInfo)) :
  Reflexive Q → (∀ log ev, Q log (log ++ [ev])) →
  services_respect host (logging Q).
Proof.
  intros Hrefl Hstep name service s err s' Hlook Hex.
  change (neovm_service.ServiceMap host) with ServiceMap in Hlook.
  unfold ServiceMap in Hlook.
  apply lookup_singleton_Some in Hlook as [_ <-].
  apply RuntimeNotify_appends in Hex as [Hbuffer Hlog].
  split; [done|].
  destruct err as [e|]; [by rewrite Hlog|].
  destruct Hlog as (c & item & _ & _ & ->). apply Hstep.
Qed.

Lemma minivm_services_append : services_append host.
Proof.
  assert (services_respect host (logging prefix)) as Hsvc.
  { apply minivm_services_logging.
    - intros log. reflexivity.
    - intros log ev. by eexists. }
  intros name service s err s' Hlook Hex.
  exact (proj2 (Hsvc _ _ _ _ _ Hlook Hex)).
Qed.



Lemma S4_Invoke :
  ∃ r this' ref',
    Invoke host 20
      (child_service codeA (fresh [codeA; codeB] (Ok []) 10000) [])
      (fresh [codeA; codeB] (Ok []) 10000)
    = Some (Ok r, (this', ref')).
Proof. eexists _, _, _. vm_compute. reflexivity. Qed.



(** C3 (the code at the limit).  With 1024 contexts on the stack
    [NewExecuteEngine] still answers a service, and the [Invoke] of that
    service pushes context number 1025; only from there on it refuses.
    The contract that calls itself without end is stopped with "engine
    over max limit!" when the context stack is 1025 deep. *)
Theorem NewExecuteEngine_admits_context_1025 :
  (∀ code ref ctx,
     length (smartcontract.Contexts ref) = smartcontract.MAX_EXECUTE_ENGINE →
     smartcontract.NewExecuteEngine code ref = Ok (child_service code ref [])
     ∧ length (smartcontract.Contexts (smartcontract.PushContext ctx ref))
       = 1025)
  ∧ observed (run 4000 [codeR] 100000 codeE)
    = Some (Err (Errorf "engine over max limit!" None),
            1, 1025).
Proof.
  split.
  - intros code ref ctx Hlen. split.
    + apply NewExecuteEngine_Ok. lia.
    + unfold smartcontract.PushContext. simpl.
      rewrite length_app, Hlen. reflexivity.
  - vm_compute. reflexivity.
Qed.

(** C4 (the code at PUSH16).  Behind [ExecuteCode], while the instruction
    pointer is inside the code, the items of the evaluation and alt stack
    plus a pre-charge must not exceed 2048, or the turn ends with the
    stack-size error; with the pointer past the end the check is skipped.
    Away from PUSH16 the pre-charge is the predicted growth of the opcode.
    At PUSH16, which pushes one item, the pre-charge is 0: with 2048 items
    on the two stacks the check passes, PUSH16 runs and leaves 2049 items,
    where the same script with PUSH15 is stopped by the stack-size error. *)
Theorem checkStackSize_does_not_precharge_PUSH16 :
  (* where the check sits *)
  (∀ H invoke s s0 c e1 c1,
     (if PreExec s.1 then on_ref smartcontract.CheckExecStep else ret true) s
     = Some (Ok true, s0) →
     vm.Context (Engine s0.1) = Some c →
     vm.InstructionPointer c < length (vm.Code c) →
     neovm_service.ExecuteCode H (Engine s0.1) = (None, e1) →
     vm.Context e1 = Some c1 →
     Invoke_turn H invoke s =
     if decide (vm.InstructionPointer c1 < length (vm.Code c1)
                ∧ checkStackSize H e1 = false)
     then Some (Err ERR_CHECK_STACK_SIZE, (with_Engine e1 s0.1, s0.2))
     else bind (Invoke_gas H)
               (λ _, bind (Invoke_switch H invoke) (λ _, ret true))
               (with_Engine e1 s0.1, s0.2))
  (* what it checks *)
  ∧ (∀ H e size,
       precharge H e = Some size →
       checkStackSize H e = true ↔
       size + length (vm.EvaluationStack e) + length (vm.AltStack e) ≤ 2048)
  ∧ (∀ H e, precharge H e = None → checkStackSize H e = false)
  (* the pre-charge *)
  ∧ (∀ H e,
       vm.OpCode e ≠ neovm_service.PUSH16 H →
       precharge H e = Some (predicted_growth H e)
       ∨ (precharge H e = None ∧ vm.EvaluationStack e = []))
  ∧ (∀ H e,
       vm.OpCode e = neovm_service.PUSH16 H →
       neovm_service.PUSH16 H
       ∉ [neovm_service.DEPTH H; neovm_service.DUP H; neovm_service.OVER H;
          neovm_service.TUCK H; neovm_service.UNPACK H] →
       length (vm.EvaluationStack e) + length (vm.AltStack e) = 2048 →
       predicted_growth H e = 1 ∧ precharge H e = Some 0
       ∧ checkStackSize H e = true)
  (* PUSH16 and PUSH15 on 2048 items *)
  ∧ observed (run 3000 [] 100000 (fill 2048 [PUSH16; RET]))
    = Some (Ok (Some (vm.Integer 16)), 2049, 1)
  ∧ observed (run 3000 [] 100000 (fill 2048 [PUSH15; RET]))
    = Some (Err ERR_CHECK_STACK_SIZE, 2048, 1).
Proof.
  split_and!.
  - intros H. apply Invoke_turn_after_ExecuteCode.
  - intros H e size. apply checkStackSize_precharged.
  - intros H e Hp. unfold checkStackSize. by rewrite Hp.
  - intros H e. apply precharge_predicted_growth.
  - intros H e Hop Hnot Hlen.
    destruct (precharge_PUSH16 H e Hop Hnot) as [Hp Hg].
    split_and!; [done..|].
    apply (checkStackSize_precharged H e 0 Hp).
    unfold DUPLICATE_STACK_SIZE. lia.
  - vm_compute. reflexivity.
  - vm_compute. reflexivity.
Qed.


(* ------------------------------------------------------------------ *)
(** ** The statements at concrete inputs *)

Lemma PopContext_keeps_entry_and_accessors_witness :
  smartcontract.Contexts (smartcontract.PopContext (inside_B (Ok [])))
  = [context.mkContext addressA codeA]
  ∧ smartcontract.CallingContext (inside_B (Ok []))
    = Some (context.mkContext addressA codeA)
  ∧ smartcontract.CurrentContext (inside_B (Ok []))
    = Some (context.mkContext addressB codeB).
Proof.
  destruct (PopContext_keeps_entry_and_accessors (inside_B (Ok [])))
    as (Hpop & _ & _ & _ & _ & _ & Hacc & _).
  split.
  - exact (Hpop [] _ _ eq_refl).
  - exact (Hacc [] _ _ eq_refl).
Defined.

Lemma CheckWitness_iff_signer_or_caller_witness :
  common.wf_Address addressA
  ∧ smartcontract.CheckWitness addressA (inside_B (Ok [addressS])) = true
  ∧ smartcontract.CheckWitness addressB (inside_B (Ok [addressS])) = false.
Proof.
  assert (common.wf_Address addressA) as Hwf by reflexivity.
  destruct (CheckWitness_iff_signer_or_caller
              (inside_B (Ok [addressS])) addressA Hwf) as [_ Hscenario].
  destruct (Hscenario [] (context.mkContext addressA codeA)
                      (context.mkContext addressB codeB) eq_refl)
    as [HA HB].
  split; [exact Hwf|]. split; [exact HA|].
  apply HB. split.
  - vm_compute. intros Heq. discriminate Heq.
  - intros (addresses & Hsigners & Hin).
    injection Hsigners as <-.
    apply list_elem_of_singleton in Hin.
    vm_compute in Hin. discriminate Hin.
Defined.

(** C2 as stated fails for the address of B inside B called by A: when
    that address is also a signature address of the transaction, and when
    B is its own caller, [CheckWitness] answers true for it. *)
Lemma CheckWitness_true_for_current_contract :
  smartcontract.CallingContext (inside_B (Ok [addressB]))
  = Some (context.mkContext addressA codeA)
  ∧ smartcontract.CurrentContext (inside_B (Ok [addressB]))
    = Some (context.mkContext addressB codeB)
  ∧ addressA ≠ addressB
  ∧ smartcontract.CheckWitness addressB (inside_B (Ok [addressB])) = true
  ∧ smartcontract.CheckWitness addressB
      (smartcontract.PushContext (context.mkContext addressB codeB)
         (smartcontract.PushContext (context.mkContext addressB codeB)
            (fresh [codeB] (Ok []) 100)))
    = true.
Proof.
  split_and!; try reflexivity.
  vm_compute. intros Heq. discriminate Heq.
Qed.

Lemma CheckWitness_signature_addresses_error_witness :
  smartcontract.checkAccountAddress addressS
    (inside_B (Err (NewErr "invalid signature program"))) = false
  ∧ smartcontract.CheckWitness addressA
      (inside_B (Err (NewErr "invalid signature program"))) = true.
Proof.
  split.
  - exact (proj1 (CheckWitness_signature_addresses_error
                    (inside_B (Err (NewErr "invalid signature program")))
                    addressS _ eq_refl)).
  - apply (CheckWitness_signature_addresses_error
             (inside_B (Err (NewErr "invalid signature program")))
             addressA _ eq_refl).
    exists (context.mkContext addressA codeA). split; reflexivity.
Defined.

Lemma encodeID_decodeID_roundtrip_witness :
  common.wf_Address OntIDContractAddress
  ∧ ontid.encodeID OntIDContractAddress (bytes_of "did:dna:1")
    = Ok (OntIDContractAddress ++ [Byte.x09] ++ bytes_of "did:dna:1")
  ∧ ontid.decodeID OntIDContractAddress
      (OntIDContractAddress ++ [Byte.x09] ++ bytes_of "did:dna:1")
    = Ok (bytes_of "did:dna:1")
  ∧ ontid.decodeID OntIDContractAddress
      (OntIDContractAddress ++ [Byte.x0a] ++ bytes_of "did:dna:1")
    = Err (NewErr "decode ID error: invalid data length").
Proof.
  assert (common.wf_Address OntIDContractAddress) as Hwf by reflexivity.
  split; [exact Hwf|].
  destruct (encodeID_decodeID_roundtrip OntIDContractAddress Hwf
              (bytes_of "did:dna:1")
              (OntIDContractAddress ++ [Byte.x0a] ++ bytes_of "did:dna:1"))
    as (Hid & _ & Hbad & _).
  destruct Hid as (Henc & _ & Hdec); [vm_compute; lia|].
  split; [exact Henc|]. split.
  - exact (Hdec _ Henc).
  - apply (Hbad Byte.x0a); [reflexivity | vm_compute; lia].
Defined.

(** The service stopped behind the SYSCALL opcode of [Notify("a1")], the
    payload on the stack. *)
Lemma SystemCall_lookup_validate_charge_execute_witness :
  (* gas for the call: the event is recorded *)
  (∃ s', SystemCall host
           (stopped_at (syscall RUNTIME_NOTIFY_NAME) 1
                       [vm.ByteArray (bytes_of "a1")] [] 10)
         = Some (Ok tt, s')
         ∧ smartcontract.Gas s'.2 = 9%N
         ∧ smartcontract.Notifications s'.2
           = [event_of (AddressFromVmCode (syscall RUNTIME_NOTIFY_NAME)) "a1"])
  (* no gas: the effect does not run, the payload stays where it is *)
  ∧ (∃ s', SystemCall host
             (stopped_at (syscall RUNTIME_NOTIFY_NAME) 1
                         [vm.ByteArray (bytes_of "a1")] [] 0)
           = Some (Err ERR_GAS_INSUFFICIENT, s')
           ∧ stack_of s' = [vm.ByteArray (bytes_of "a1")]
           ∧ smartcontract.Notifications s'.2 = [])
  (* an unknown name *)
  ∧ (∃ e s', SystemCall host
               (stopped_at (syscall "Runtime.Nothing") 1 [] [] 10)
             = Some (Err e, s')
             ∧ smartcontract.Gas s'.2 = 10%N).
Proof.
  split_and!.
  - destruct (SystemCall_lookup_validate_charge_execute host
                (stopped_at (syscall RUNTIME_NOTIFY_NAME) 1
                            [vm.ByteArray (bytes_of "a1")] [] 10)
                (stopped_at (syscall RUNTIME_NOTIFY_NAME) 16
                            [vm.ByteArray (bytes_of "a1")] [] 10)
                RUNTIME_NOTIFY_NAME eq_refl) as [_ Hknown].
    destruct (Hknown (mkService RuntimeNotify (Some validatorNotify)) eq_refl)
      as [_ Hvalid].
    destruct (Hvalid (stopped_at (syscall RUNTIME_NOTIFY_NAME) 16
                                 [vm.ByteArray (bytes_of "a1")] [] 10))
      as [_ Hprice].
    { right. exists validatorNotify. eexists. split_and!; reflexivity. }
    destruct (Hprice 1%N eq_refl) as [_ Hcharged].
    destruct Hcharged as [Hrun _]; [vm_compute; discriminate|].
    eexists. split; [exact Hrun|]. split; reflexivity.
  - destruct (SystemCall_lookup_validate_charge_execute host
                (stopped_at (syscall RUNTIME_NOTIFY_NAME) 1
                            [vm.ByteArray (bytes_of "a1")] [] 0)
                (stopped_at (syscall RUNTIME_NOTIFY_NAME) 16
                            [vm.ByteArray (bytes_of "a1")] [] 0)
                RUNTIME_NOTIFY_NAME eq_refl) as [_ Hknown].
    destruct (Hknown (mkService RuntimeNotify (Some validatorNotify)) eq_refl)
      as [_ Hvalid].
    destruct (Hvalid (stopped_at (syscall RUNTIME_NOTIFY_NAME) 16
                                 [vm.ByteArray (bytes_of "a1")] [] 0))
      as [_ Hprice].
    { right. exists validatorNotify. eexists. split_and!; reflexivity. }
    destruct (Hprice 1%N eq_refl) as [Hshort _].
    eexists. split; [apply Hshort; vm_compute; reflexivity|].
    split; reflexivity.
  - destruct (SystemCall_lookup_validate_charge_execute host
                (stopped_at (syscall "Runtime.Nothing") 1 [] [] 10)
                (stopped_at (syscall "Runtime.Nothing") 17 [] [] 10)
                "Runtime.Nothing" eq_refl) as [Hunknown _].
    eexists. eexists. split; [apply Hunknown; reflexivity | reflexivity].
Defined.

Lemma Invoke_VERIFY_pushes_Boolean_or_aborts_witness :
  (* a good signature *)
  (∃ s', Invoke_VERIFY host
           (stopped_at [VERIFY] 1
              [vm.ByteArray keyK; vm.ByteArray sigK;
               vm.ByteArray (bytes_of "msg")] [] 10)
         = Some (Ok tt, s') ∧ stack_of s' = [vm.Boolean true])
  (* a bad signature *)
  ∧ (∃ s', Invoke_VERIFY host
             (stopped_at [VERIFY] 1
                [vm.ByteArray keyK; vm.ByteArray (bytes_of "forged");
                 vm.ByteArray (bytes_of "msg")] [] 10)
           = Some (Ok tt, s') ∧ stack_of s' = [vm.Boolean false]).
Proof.
  split.
  - destruct (Invoke_VERIFY_pushes_Boolean_or_aborts host
                (stopped_at [VERIFY] 1
                   [vm.ByteArray keyK; vm.ByteArray sigK;
                    vm.ByteArray (bytes_of "msg")] [] 10))
      as (_ & Hpush & _).
    eexists. split.
    + exact (Hpush _ _ _ _ keyK keyK sigK (bytes_of "msg")
               eq_refl eq_refl eq_refl eq_refl eq_refl).
    + reflexivity.
  - destruct (Invoke_VERIFY_pushes_Boolean_or_aborts host
                (stopped_at [VERIFY] 1
                   [vm.ByteArray keyK; vm.ByteArray (bytes_of "forged");
                    vm.ByteArray (bytes_of "msg")] [] 10))
      as (_ & Hpush & _).
    eexists. split.
    + exact (Hpush _ _ _ _ keyK keyK (bytes_of "forged") (bytes_of "msg")
               eq_refl eq_refl eq_refl eq_refl eq_refl).
    + reflexivity.
Defined.

(** C8 as stated fails: with a well-formed public key on top and an Array
    where the signature should be, VERIFY aborts the execution. *)
Lemma Invoke_VERIFY_aborts_on_wellformed_key :
  ∃ e s',
    Invoke_VERIFY host
      (stopped_at [VERIFY] 1
         [vm.ByteArray keyK; vm.Array []; vm.ByteArray (bytes_of "msg")]
         [] 10)
    = Some (Err e, s')
    ∧ neovm_service.GetByteArray host (vm.ByteArray keyK) = Ok keyK
    ∧ neovm_service.DeserializePublicKey host keyK = Ok keyK.
Proof. eexists. eexists. split_and!; reflexivity. Qed.

(** APPCALL of B from a frame with one item on its stack: B starts with
    that item, and hands it back as its result. *)
Lemma Invoke_APPCALL_target_stack_result_witness :
  ∃ s', Invoke_APPCALL host (Invoke host 20)
          (stopped_at (APPCALL :: addressB) 1
                      [vm.ByteArray (bytes_of "x")] [codeB] 100)
        = Some (Ok tt, s')
        ∧ stack_of s' = [vm.ByteArray (bytes_of "x");
                         vm.ByteArray (bytes_of "x")]
        ∧ smartcontract.Notifications s'.2 = [event_of addressB "b1"].
Proof.
  destruct (Invoke_APPCALL_target_stack_result host)
    as (Htarget & Hcall & _).
  destruct (Htarget
              (stopped_at (APPCALL :: addressB) 1
                          [vm.ByteArray (bytes_of "x")] [codeB] 100)
              addressB
              (stopped_at (APPCALL :: addressB) 21
                          [vm.ByteArray (bytes_of "x")] [codeB] 100)
              eq_refl) as [Himmediate _].
  assert (addressB ≠ BYTE_ZERO_20) as Hnz
    by (vm_compute; intros Heq; discriminate Heq).
  destruct (Hcall _ _ _ addressB (Invoke host 20) (Himmediate Hnz) eq_refl)
    as [_ Hfound].
  eexists. split.
  - rewrite (Hfound (storage.mkDeployCode codeB) eq_refl);
      [vm_compute; reflexivity | vm_compute; lia].
  - split; vm_compute; reflexivity.
Defined.


(* ================================================================== *)
(** * Further properties *)

(* ------------------------------------------------------------------ *)
(** ** The context stack, gas and steps (smart_contract.go) *)

Section ContextOperations.

Import smartcontract.

Implicit Types (this : SmartContract) (ctx : context.Context).

Lemma SmartContract_eta this :
  mkSmartContract (Contexts this) (CacheDB this) (Config_ this)
                  (Notifications this) (Gas this) (ExecStep this)
                  (PreExec this) = this.
Proof. by destruct this. Qed.

Lemma PopContext_PushContext this ctx :
  Contexts this ≠ [] → PopContext (PushContext ctx this) = this.
Proof.
  intros Hne. unfold PopContext, PushContext, with_Contexts. simpl.
  rewrite length_app. simpl.
  case_decide as Hlen.
  - replace (length (Contexts this) + 1 - 1) with (length (Contexts this))
      by lia.
    rewrite take_app_length. apply SmartContract_eta.
  - destruct (Contexts this); [done | simpl in Hlen; lia].
Qed.

Lemma PopContext_nonempty this :
  Contexts this ≠ [] → Contexts (PopContext this) ≠ [].
Proof.
  unfold PopContext. case_decide as Hlen; [|done]. simpl. intros _ Hnil.
  apply (f_equal length) in Hnil. rewrite length_take in Hnil.
  simpl in Hnil. lia.
Qed.

(** X1.  A push makes the pushed context the current one, the context that was
    current the calling one, and leaves the entry context in place; a pop
    right after undoes it, except on the empty stack, where the pushed
    context is the entry context and stays. *)
Theorem PushContext_accessors_and_PopContext this ctx :
  CurrentContext (PushContext ctx this) = Some ctx
  ∧ CallingContext (PushContext ctx this) = CurrentContext this
  ∧ EntryContext (PushContext ctx this)
    = (if EntryContext this is Some entry then Some entry else Some ctx)
  ∧ (Contexts this ≠ [] → PopContext (PushContext ctx this) = this)
  ∧ (Contexts this = [] →
       PopContext (PushContext ctx this) = PushContext ctx this
       ∧ CallingContext (PushContext ctx this) = None).
Proof.
  split_and!.
  - by apply (CurrentContext_snoc _ (Contexts this)).
  - rewrite CurrentContext_last.
    destruct (Contexts this) as [|c cs] eqn:Hcs using rev_ind.
    + apply CallingContext_short. unfold PushContext. simpl. rewrite Hcs.
      simpl. lia.
    + rewrite last_snoc.
      apply (CallingContext_snoc2 _ cs c ctx). unfold PushContext. simpl.
      by rewrite Hcs, <-app_assoc.
  - unfold EntryContext, PushContext. simpl. rewrite length_app. simpl.
    repeat case_decide; try lia.
    + destruct (Contexts this); [done | simpl in *; lia].
    + destruct (Contexts this) as [|c cs]; [simpl in *; lia | done].
  - apply PopContext_PushContext.
  - intros Hnil. split.
    + apply PopContext_short. unfold PushContext. simpl. rewrite Hnil.
      simpl. lia.
    + apply CallingContext_short. unfold PushContext. simpl. rewrite Hnil.
      simpl. lia.
Qed.

(** X2.  [CheckUseGas] answers true exactly when the gas left covers the
    charge, and then takes the charge off and nothing else; a refused
    charge changes nothing.  Two charges in a row that both fit are one
    charge of the sum; when only the first fits it stays charged. *)
Theorem CheckUseGas_charges_exactly this gas gas' :
  ((CheckUseGas gas this).1 = true ↔ (gas ≤ Gas this)%N)
  ∧ ((gas ≤ Gas this)%N →
       (CheckUseGas gas this).2 = with_Gas (Gas this - gas)%N this
       ∧ (Gas (CheckUseGas gas this).2 + gas = Gas this)%N)
  ∧ ((Gas this < gas)%N → (CheckUseGas gas this).2 = this)
  ∧ ((gas + gas' ≤ Gas this)%N →
       CheckUseGas gas' (CheckUseGas gas this).2
       = (true, (CheckUseGas (gas + gas') this).2))
  ∧ ((gas ≤ Gas this < gas + gas')%N →
       CheckUseGas gas' (CheckUseGas gas this).2
       = (false, with_Gas (Gas this - gas)%N this)).
Proof.
  unfold CheckUseGas. split_and!.
  - case_decide; simpl; split; (done || lia).
  - intros Hle. case_decide; [lia|]. simpl. split; [done | lia].
  - intros Hlt. by case_decide.
  - intros Hle. repeat (case_decide; simpl in *; try lia).
    unfold with_Gas. simpl. do 2 f_equal. lia.
  - intros [Hle Hlt]. repeat (case_decide; simpl in *; try lia). done.
Qed.

Lemma CheckExecStep_iter_le n this :
  (ExecStep this ≤ VM_STEP_LIMIT)%Z →
  (ExecStep (Nat.iter n (λ t, (CheckExecStep t).2) this)
   = Z.min VM_STEP_LIMIT (ExecStep this + Z.of_nat n))%Z.
Proof.
  intros Hle. induction n as [|n IH]; simpl.
  - lia.
  - unfold CheckExecStep at 1. rewrite IH.
    case_decide; simpl; lia.
Qed.

(** X3.  [CheckExecStep] answers true exactly below the limit and then counts
    one step; at the limit it refuses and counts nothing, so that a
    counter that starts at or below the limit never passes it: after [n]
    calls it stands at the smaller of the limit and the start plus [n]. *)
Theorem CheckExecStep_counts_up_to_limit this :
  ((CheckExecStep this).1 = true ↔ (ExecStep this < VM_STEP_LIMIT)%Z)
  ∧ ((ExecStep this < VM_STEP_LIMIT)%Z →
       (CheckExecStep this).2 = with_ExecStep (ExecStep this + 1)%Z this)
  ∧ ((VM_STEP_LIMIT ≤ ExecStep this)%Z → (CheckExecStep this).2 = this)
  ∧ ∀ n, (ExecStep this ≤ VM_STEP_LIMIT)%Z →
         (ExecStep (Nat.iter n (λ t, (CheckExecStep t).2) this)
          = Z.min VM_STEP_LIMIT (ExecStep this + Z.of_nat n))%Z.
Proof.
  split_and!.
  - unfold CheckExecStep. case_decide; simpl; split; (done || lia).
  - intros Hlt. unfold CheckExecStep. case_decide; [lia | done].
  - intros Hge. unfold CheckExecStep. by case_decide.
  - intros n. apply CheckExecStep_iter_le.
Qed.

End ContextOperations.

(* ------------------------------------------------------------------ *)
(** ** Keys of ONT IDs (utils.go) *)

Section OntIDKeys.

Import ontid ontid_utils.

Variable OntIDContractAddress : common.Address.

Lemma encodeID_inv id enc :
  encodeID OntIDContractAddress id = Ok enc →
  1 ≤ length id ≤ 255
  ∧ enc = OntIDContractAddress ++ [byte_of_int (length id)] ++ id.
Proof.
  unfold encodeID. case_decide; [done|]. intros [= <-].
  split; [lia | by rewrite <-app_assoc].
Qed.

Lemma encoded_prefix id1 id2 k1 k2 :
  encodeID OntIDContractAddress id1 = Ok k1 →
  encodeID OntIDContractAddress id2 = Ok k2 →
  k1 `prefix_of` k2 → id1 = id2.
Proof.
  intros [Hl1 ->]%encodeID_inv [Hl2 ->]%encodeID_inv [t Ht].
  rewrite <-!app_assoc in Ht. apply app_inv_head in Ht.
  simpl in Ht. injection Ht as Hb Hid.
  assert (length id2 = length id1) as Hlen.
  { rewrite <-(int_of_byte_of_int (length id2)), <-(int_of_byte_of_int (length id1))
      by lia. by rewrite Hb. }
  rewrite Hid, length_app in Hlen.
  destruct t; [by rewrite app_nil_r in Hid | simpl in Hlen; lia].
Qed.

(** X4.  The keys of two ids never collide: no encoded id is a proper prefix of
    another, so the key of a field of an id ([append(encID, FIELD)]) is
    the key of a field of another id only when id and field are the same,
    and is never the key of an id itself. *)
Theorem encodeID_keys_do_not_collide id1 id2 k1 k2 f1 f2 :
  encodeID OntIDContractAddress id1 = Ok k1 →
  encodeID OntIDContractAddress id2 = Ok k2 →
  (k1 `prefix_of` k2 → id1 = id2)
  ∧ (k1 = k2 → id1 = id2)
  ∧ (field_key k1 f1 = field_key k2 f2 → id1 = id2 ∧ f1 = f2)
  ∧ field_key k1 f1 ≠ k2.
Proof.
  intros H1 H2.
  assert (k1 `prefix_of` k2 → id1 = id2) as Hprefix
    by by apply encoded_prefix.
  split_and!; [done | intros ->; by apply Hprefix | |].
  - unfold field_key. intros Heq.
    assert (length k1 = length k2) as Hlen.
    { apply (f_equal length) in Heq. rewrite !length_app in Heq.
      simpl in Heq. lia. }
    apply app_inj_1 in Heq as [-> [= ->]]; [|done].
    split; [by apply Hprefix | done].
  - unfold field_key. intros Heq.
    assert (id1 = id2) as -> by (apply Hprefix; by exists [f1]).
    rewrite H1 in H2. injection H2 as ->.
    apply (f_equal length) in Heq. rewrite length_app in Heq.
    simpl in Heq. lia.
Qed.

Hypothesis OntIDContractAddress_wf : common.wf_Address OntIDContractAddress.

(** X5.  [decodeID] looks at the length of the data and at the length byte
    only.  It answers its error on less than 20 bytes and on a length
    that is not what the byte at index 20 says; on exactly 20 bytes the
    index runs out of range; otherwise it answers the bytes after the
    length byte, whatever the first 20 bytes are and also when there is
    none of them.  So what it answers encodes back to the data only when
    the data start with the contract address and the id is not empty. *)
Theorem decodeID_outcomes (data : list byte) :
  (decodeID OntIDContractAddress data = Err (Panic "index out of range")
   ↔ length data = 20)
  ∧ (decodeID OntIDContractAddress data
     = Err (NewErr "decode ID error: invalid data length")
     ↔ length data < 20
       ∨ ∃ b, data !! 20 = Some b ∧ length data ≠ int_of_byte b + 1 + 20)
  ∧ (∀ id, decodeID OntIDContractAddress data = Ok id
           ↔ ∃ b, data !! 20 = Some b
                  ∧ length data = int_of_byte b + 1 + 20
                  ∧ id = drop 21 data)
  ∧ (∀ id, decodeID OntIDContractAddress data = Ok id →
           length id ≤ 255
           ∧ (encodeID OntIDContractAddress id = Ok data
              ↔ take 20 data = OntIDContractAddress ∧ id ≠ [])).
Proof.
  unfold common.wf_Address, common.ADDR_LEN in OntIDContractAddress_wf.
  assert (∀ id, decodeID OntIDContractAddress data = Ok id
                ↔ ∃ b, data !! 20 = Some b
                       ∧ length data = int_of_byte b + 1 + 20
                       ∧ id = drop 21 data) as Hok.
  { intros id. unfold decodeID. rewrite OntIDContractAddress_wf.
    case_decide as Hlt.
    - split; [done|]. intros (b & Hb%lookup_lt_Some & _). lia.
    - destruct (data !! 20) as [b|] eqn:Hb.
      + case_decide; split.
        * done.
        * intros (b' & [= <-] & ? & _). done.
        * intros [= <-]. exists b. split_and!; [done | lia | done].
        * intros (b' & [= <-] & _ & ->). done.
      + split; [done | by intros (b & [=] & _)]. }
  split_and!; [| |done|].
  - unfold decodeID. rewrite OntIDContractAddress_wf.
    case_decide as Hlt; [split; [done | lia]|].
    destruct (data !! 20) as [b|] eqn:Hb.
    + apply lookup_lt_Some in Hb as Hlen.
      case_decide; split; (done || lia).
    + apply lookup_ge_None in Hb. split; [lia | done].
  - unfold decodeID. rewrite OntIDContractAddress_wf.
    case_decide as Hlt; [split; [by left | done]|].
    destruct (data !! 20) as [b|] eqn:Hb.
    + case_decide; split.
      * intros _. right. by exists b.
      * done.
      * done.
      * intros [?|(b' & [= <-] & ?)]; [lia | done].
    + split; [done|]. intros [?|(b & [=] & _)]. lia.
  - intros id (b & Hb & Hlen & ->)%Hok.
    pose proof (Byte.to_nat_bounded b) as Hbound. unfold int_of_byte in *.
    assert (length (drop 21 data) = Byte.to_nat b) as Hid
      by (rewrite length_drop; lia).
    split; [lia|]. unfold encodeID. rewrite Hid.
    assert (byte_of_int (Byte.to_nat b) = b) as Hbyte.
    { unfold byte_of_int. rewrite Nat.mod_small by lia.
      by rewrite Byte.of_to_nat. }
    assert (data = take 20 data ++ [b] ++ drop 21 data) as Hdata.
    { rewrite <-(take_drop 20 data) at 1. f_equal.
      rewrite (drop_S _ b 20) by done. done. }
    case_decide as Hbad.
    + split; [done|]. intros [_ Hne].
      destruct Hbad as [Hz|?]; [|lia].
      rewrite <-Hid in Hz. by apply nil_length_inv in Hz.
    + rewrite Hbyte. split.
      * intros [= Henc]. split.
        -- rewrite <-Henc at 1. rewrite <-app_assoc.
           by rewrite take_app_length' by done.
        -- intros Hnil. rewrite Hnil in Hid. simpl in Hid. lia.
      * intros [Htake _]. f_equal. rewrite <-app_assoc.
        rewrite <-Htake at 1. by rewrite <-Hdata.
Qed.

End OntIDKeys.

(* ------------------------------------------------------------------ *)
(** ** The witness of a key (utils.go) *)

Section KeyWitness.

Import ontid_utils.

Context (K : Keys).

(** X6.  [checkWitness] accepts a key exactly when the address of the public
    key it parses to, or the address [AddressParseFromBytes] answers for
    it, is a signature address of the transaction or the address of the
    calling contract.  Whether [AddressParseFromBytes] also answered an
    error makes no difference. *)
Theorem checkWitness_accepts_iff (ContextRef : smartcontract.SmartContract)
  (key : list byte) :
  (checkWitness K ContextRef key = None ↔
     (∃ pk, DeserializePublicKey K key = Ok pk
            ∧ (signed_by ContextRef (AddressFromPubKey K pk)
               ∨ called_by ContextRef (AddressFromPubKey K pk)))
     ∨ signed_by ContextRef (AddressParseFromBytes K key).1
     ∨ called_by ContextRef (AddressParseFromBytes K key).1)
  ∧ (checkWitness K ContextRef key ≠ None →
       checkWitness K ContextRef key
       = Some (NewErr ("check witness failed, " +:+ hex_EncodeToString key))).
Proof.
  unfold checkWitness. split_and!.
  - destruct (DeserializePublicKey K key) as [pk|e] eqn:Hpk.
    + destruct (smartcontract.CheckWitness (AddressFromPubKey K pk) _)
        eqn:Hw.
      * split; [|done]. intros _. left. exists pk.
        split; [done|]. by apply CheckWitness_spec.
      * destruct (AddressParseFromBytes K key) as [addr err]. simpl.
        destruct (smartcontract.CheckWitness addr _) eqn:Hw'.
        -- split; [|done]. intros _. right. by apply CheckWitness_spec.
        -- split; [done|].
           intros [(pk' & [= <-] & Hpk')|Haddr].
           ++ apply CheckWitness_spec in Hpk'. congruence.
           ++ apply CheckWitness_spec in Haddr. congruence.
    + destruct (AddressParseFromBytes K key) as [addr err]. simpl.
      destruct (smartcontract.CheckWitness addr _) eqn:Hw'.
      * split; [|done]. intros _. right. by apply CheckWitness_spec.
      * split; [done|].
        intros [(pk' & [=] & _)|Haddr].
        apply CheckWitness_spec in Haddr. congruence.
  - destruct (DeserializePublicKey K key) as [pk|e];
      [destruct (smartcontract.CheckWitness (AddressFromPubKey K pk) _)|];
      try (intros Hne; by contradict Hne);
      destruct (AddressParseFromBytes K key) as [addr err];
      (destruct (smartcontract.CheckWitness addr _);
       [intros Hne; by contradict Hne | done]).
Qed.

End KeyWitness.

(* ------------------------------------------------------------------ *)
(** ** What a whole run keeps (neovm_service.go)

    Relations on the shared [SmartContract] that every step of [Invoke]
    respects, one for the steps that answer a value and one for those that
    answer an error. *)

Section OutcomeRespects.

Import neovm neovm_service.

Context (H : Host) (Qok Qerr : relation smartcontract.SmartContract).
Context `{!PreOrder Qok} `{!Reflexive Qerr}.

Hypothesis Qok_Qerr : ∀ a b c, Qok a b → Qerr b c → Qerr a c.
Hypothesis Qok_gas : ∀ ref gas, Qok ref (smartcontract.CheckUseGas gas ref).2.
Hypothesis Qok_step : ∀ ref, Qok ref (smartcontract.CheckExecStep ref).2.

Local Abbreviation respects2 := (outcome_respects (shared Qok) (shared Qerr)).

Lemma respects2_ret {A} (a : A) : respects2 (ret a).
Proof. intros s r s' [= <- <-]. by unfold shared. Qed.

Lemma respects2_raise {A} e : respects2 (@raise A e).
Proof. intros s r s' [= <- <-]. by unfold shared. Qed.

Lemma respects2_bind {A B} (m : M A) (k : A → M B) :
  respects2 m → (∀ a, respects2 (k a)) → respects2 (bind m k).
Proof.
  intros Hm Hk s r s'. unfold bind.
  destruct (m s) as [[[a|e] s1]|] eqn:Hms; [| |done].
  - intros Hks. apply Hm in Hms. apply Hk in Hks. unfold shared in *.
    destruct r; [by etrans | by eapply Qok_Qerr].
  - intros [= <- <-]. by apply Hm in Hms.
Qed.

Lemma respects2_same_ref {A} (m : M A) :
  (∀ s r s', m s = Some (r, s') → s'.2 = s.2) → respects2 m.
Proof.
  intros Hm s r s' Hrun. apply Hm in Hrun. unfold shared. rewrite Hrun.
  by destruct r.
Qed.

Lemma respects2_engine : respects2 engine.
Proof. apply respects2_same_ref. by intros s r s' [= <- <-]. Qed.

Lemma respects2_this : respects2 (λ s : St, Some (Ok s.1, s)).
Proof. apply respects2_same_ref. by intros s r s' [= <- <-]. Qed.

Lemma respects2_set_engine e : respects2 (set_engine e).
Proof. apply respects2_same_ref. by intros s r s' [= <- <-]. Qed.

Lemma respects2_on_engine f : respects2 (on_engine f).
Proof.
  apply respects2_same_ref. intros s r s'. unfold on_engine.
  destruct (f _) as [[err|] e']; by intros [= <- <-].
Qed.

Lemma respects2_CheckUseGas gas :
  respects2 (on_ref (smartcontract.CheckUseGas gas)).
Proof.
  intros s r s'. unfold on_ref.
  pose proof (Qok_gas s.2 gas) as HQ.
  destruct (smartcontract.CheckUseGas gas s.2). by intros [= <- <-].
Qed.

Lemma respects2_CheckExecStep :
  respects2 (on_ref smartcontract.CheckExecStep).
Proof.
  intros s r s'. unfold on_ref.
  pose proof (Qok_step s.2) as HQ.
  destruct (smartcontract.CheckExecStep s.2). by intros [= <- <-].
Qed.

Lemma respects2_wrap_err {A} w (m : M A) :
  respects2 m → respects2 (wrap_err w m).
Proof.
  intros Hm s r s'. unfold wrap_err.
  destruct (m s) as [[[a|e] s1]|] eqn:Hms; intros [= <- <-];
    by apply Hm in Hms.
Qed.

Lemma respects2_of_result {A} (r : result A) : respects2 (of_result r).
Proof. destruct r; [apply respects2_ret | apply respects2_raise]. Qed.

Lemma respects2_getContract address : respects2 (getContract address).
Proof.
  apply respects2_same_ref. intros s r s'. unfold getContract.
  repeat case_match; by intros [= <- <-].
Qed.

Create HintDb respects2 discriminated.
Hint Resolve respects2_ret respects2_raise respects2_engine respects2_this
  respects2_set_engine respects2_on_engine respects2_CheckUseGas
  respects2_CheckExecStep respects2_of_result respects2_getContract
  : respects2.

Ltac respects2_step :=
  first
    [ assumption
    | apply respects2_bind; [|intros ?]
    | apply respects2_wrap_err
    | progress eauto with respects2
    | case_decide
    | case_match ].

Lemma respects2_PopByteArray : respects2 (PopByteArray H).
Proof. unfold PopByteArray. repeat respects2_step. Qed.

Lemma respects2_on_OpReader {A} (f : vm.ExecutionContext → result A * _) :
  respects2 (on_OpReader f).
Proof. unfold on_OpReader. repeat respects2_step. Qed.

Hint Resolve respects2_PopByteArray respects2_on_OpReader : respects2.

Lemma respects2_Invoke_VERIFY : respects2 (Invoke_VERIFY H).
Proof. unfold Invoke_VERIFY. repeat respects2_step. Qed.

Lemma respects2_SystemCall :
  services_outcome_respect H (shared Qok) (shared Qerr) →
  respects2 (SystemCall H).
Proof.
  intros Hsvc. unfold SystemCall. repeat respects2_step.
  intros st r st' Hrun.
  destruct (Execute _ st) as [err st1] eqn:Hex.
  match goal with Hl : ServiceMap H !! _ = Some _ |- _ =>
    pose proof (Hsvc _ _ _ _ _ Hl Hex) as HQ end.
  destruct err; by simplify_eq.
Qed.

Lemma respects2_Invoke_APPCALL_address :
  respects2 (Invoke_APPCALL_address H).
Proof. unfold Invoke_APPCALL_address. repeat respects2_step. Qed.

Lemma respects2_Invoke_APPCALL invoke :
  invoke_outcome_respects (shared Qok) (shared Qerr) invoke →
  respects2 (Invoke_APPCALL H invoke).
Proof.
  intros Hinv. pose proof respects2_Invoke_APPCALL_address.
  unfold Invoke_APPCALL.
  do 3 (apply respects2_bind; [by eauto with respects2 | intros ?]).
  intros s r s'. unfold bind at 1.
  destruct (smartcontract.NewExecuteEngine _ s.2) as [service|e] eqn:Hnew;
    [|intros [= <- <-]; by unfold shared].
  assert (smartcontract.checkContexts s.2 = true) as Hdepth.
  { unfold smartcontract.NewExecuteEngine in Hnew.
    by destruct (smartcontract.checkContexts s.2). }
  rewrite bind_engine. unfold bind at 1.
  destruct (invoke _ _) as [[[[result|]|e] [this1 ref1]]|] eqn:Hi;
    [| | |done]; pose proof (Hinv _ _ _ _ _ Hdepth Hi) as HQ.
  - rewrite bind_engine. by intros [= <- <-].
  - by intros [= <- <-].
  - by intros [= <- <-].
Qed.

Lemma respects2_Invoke_default : respects2 (Invoke_default H).
Proof. unfold Invoke_default. repeat respects2_step. Qed.

Lemma respects2_Invoke_gas : respects2 (Invoke_gas H).
Proof. unfold Invoke_gas. repeat respects2_step. Qed.

Lemma respects2_Invoke_switch invoke :
  services_outcome_respect H (shared Qok) (shared Qerr) →
  invoke_outcome_respects (shared Qok) (shared Qerr) invoke →
  respects2 (Invoke_switch H invoke).
Proof.
  intros Hsvc Hinv. unfold Invoke_switch.
  pose proof respects2_Invoke_VERIFY. pose proof (respects2_SystemCall Hsvc).
  pose proof (respects2_Invoke_APPCALL _ Hinv).
  pose proof respects2_Invoke_default.
  repeat respects2_step.
Qed.

Lemma respects2_Invoke_turn invoke :
  services_outcome_respect H (shared Qok) (shared Qerr) →
  invoke_outcome_respects (shared Qok) (shared Qerr) invoke →
  respects2 (Invoke_turn H invoke).
Proof.
  intros Hsvc Hinv. unfold Invoke_turn.
  pose proof respects2_Invoke_gas.
  pose proof (respects2_Invoke_switch _ Hsvc Hinv).
  repeat respects2_step.
Qed.

(** The loop respects the relations when every nested [Invoke] does, which
    in turn follows from what [Invoke] adds around its loop. *)
Lemma respects2_Invoke_loop fuel :
  services_outcome_respect H (shared Qok) (shared Qerr) →
  (∀ loop, respects2 loop →
           invoke_outcome_respects (shared Qok) (shared Qerr)
                                   (Invoke_with H loop)) →
  respects2 (Invoke_loop H fuel).
Proof.
  intros Hsvc Hframe. induction fuel as [|fuel IH]; [done|]. simpl.
  apply respects2_bind.
  - apply respects2_Invoke_turn; [done|]. by apply Hframe.
  - intros []; [done | apply respects2_ret].
Qed.

End OutcomeRespects.

Section RunInvariants.

Import neovm neovm_service.

Context (H : Host).

(** [Invoke] around its loop, case by case. *)
Lemma Invoke_with_cases loop this ref r this' ref' :
  Invoke_with H loop this ref = Some (r, (this', ref')) →
  (length (Code this) = 0 ∧ r = Err ERR_EXECUTE_CODE
   ∧ this' = this ∧ ref' = ref)
  ∨ (length (Code this) ≠ 0
     ∧ ∃ rl ref2,
         loop (with_Engine
                 (vm.PushContext (vm.NewExecutionContext (Code this))
                                 (Engine this)) this,
               smartcontract.PushContext
                 (context.mkContext (AddressFromVmCode H (Code this))
                                    (Code this)) ref)
         = Some (rl, (this', ref2))
         ∧ match rl with
           | Err e => r = Err e ∧ ref' = ref2
           | Ok _ =>
               is_Ok r = true
               ∧ ref' = smartcontract.PushNotifications (Notifications this')
                          (smartcontract.PopContext ref2)
           end).
Proof.
  unfold Invoke_with. case_decide as Hcode.
  - intros [= <- <- <-]. by left.
  - intros Hrun. right. split; [done|].
    destruct (loop _) as [[[[]|e] [this2 ref2]]|] eqn:Hloop; [| |done].
    + exists (Ok tt), ref2.
      assert (this' = this2 ∧ is_Ok r = true
              ∧ ref' = smartcontract.PushNotifications (Notifications this2)
                         (smartcontract.PopContext ref2)) as (-> & ? & ->)
        by (case_decide; by simplify_eq).
      done.
    + simplify_eq. by exists (Err e), ref'.
Qed.

(** The context pushes and pops, the notification flush, the gas charge
    and the step count, unfolded. *)
Ltac shared_op :=
  intros;
  unfold gas_spent, steps_up, smartcontract.PushContext,
    smartcontract.PopContext, smartcontract.PushNotifications,
    smartcontract.CheckUseGas, smartcontract.CheckExecStep;
  repeat case_decide; simpl; (lia || done).

Lemma services_outcome_respect_same R :
  services_respect H R → services_outcome_respect H R R.
Proof.
  intros Hsvc name service s err s' Hl Hex.
  specialize (Hsvc _ _ _ _ _ Hl Hex). by destruct err.
Qed.

(** A preorder on the shared [SmartContract] that the context pushes and
    pops, the notification flush, the gas charge and the step count all
    respect, and the service effects too, is respected by [Invoke] and by
    its loop, whatever they answer. *)
Section Shared.

Context (Q : relation smartcontract.SmartContract) `{!PreOrder Q}.

Hypothesis Q_push : ∀ ref c, Q ref (smartcontract.PushContext c ref).
Hypothesis Q_pop : ∀ ref, Q ref (smartcontract.PopContext ref).
Hypothesis Q_flush : ∀ ref ns, Q ref (smartcontract.PushNotifications ns ref).
Hypothesis Q_gas : ∀ ref gas, Q ref (smartcontract.CheckUseGas gas ref).2.
Hypothesis Q_step : ∀ ref, Q ref (smartcontract.CheckExecStep ref).2.
Hypothesis Q_services : services_respect H (shared Q).

Lemma Invoke_with_respects_shared loop this ref r this' ref' :
  outcome_respects (shared Q) (shared Q) loop →
  Invoke_with H loop this ref = Some (r, (this', ref')) →
  Q ref ref'.
Proof.
  intros Hloop
    [(_ & _ & _ & ->)|(_ & rl & ref2 & Hl & Hrl)]%Invoke_with_cases;
    [done|].
  apply Hloop in Hl.
  assert (Q ref ref2) as Href2.
  { etrans; [apply Q_push|]. by destruct rl. }
  destruct rl as [[]|e]; [destruct Hrl as [_ ->] | by destruct Hrl as [_ ->]].
  etrans; [exact Href2|]. etrans; [apply Q_pop | apply Q_flush].
Qed.

Lemma Invoke_loop_respects_shared fuel :
  outcome_respects (shared Q) (shared Q) (Invoke_loop H fuel).
Proof.
  apply (respects2_Invoke_loop H Q Q); try done.
  - intros a b c. apply transitivity.
  - by apply services_outcome_respect_same.
  - intros loop Hloop s child r0 child' ref0 _ Hinvoke.
    pose proof (Invoke_with_respects_shared _ _ _ _ _ _ Hloop Hinvoke) as HQ.
    by destruct r0.
Qed.

Lemma Invoke_respects_shared fuel this ref r this' ref' :
  Invoke H fuel this ref = Some (r, (this', ref')) → Q ref ref'.
Proof.
  apply Invoke_with_respects_shared, Invoke_loop_respects_shared.
Qed.

End Shared.

#[local] Instance gas_spent_preorder : PreOrder gas_spent.
Proof.
  split.
  - intros ref. unfold gas_spent. lia.
  - intros a b c. unfold gas_spent. lia.
Qed.

#[local] Instance steps_up_preorder : PreOrder steps_up.
Proof.
  split.
  - intros ref. unfold steps_up. lia.
  - intros a b c. unfold steps_up. lia.
Qed.

#[local] Instance context_left_preorder : PreOrder context_left.
Proof.
  split.
  - intros ref. by unfold context_left.
  - intros a b c. unfold context_left. auto.
Qed.

#[local] Instance contexts_kept_preorder : PreOrder contexts_kept.
Proof.
  split.
  - intros ref. by unfold contexts_kept.
  - intros a b c. unfold contexts_kept. intros Hab Hbc Ha.
    rewrite Hbc; rewrite Hab; done.
Qed.

#[local] Instance depth_bounded_reflexive : Reflexive depth_bounded.
Proof. intros ref. by unfold depth_bounded. Qed.

(** X7.  [Invoke] never adds gas: whatever it answers, and however deep the
    calls went, the gas left afterwards is at most the gas left before,
    as long as no service effect adds gas. *)
Theorem Invoke_never_adds_gas fuel this ref r this' ref' :
  services_respect H (shared gas_spent) →
  Invoke H fuel this ref = Some (r, (this', ref')) →
  (smartcontract.Gas ref' ≤ smartcontract.Gas ref)%N.
Proof.
  intros Hsvc.
  by apply (Invoke_respects_shared gas_spent); [shared_op..|].
Qed.

(** X8.  [Invoke] never takes a notification back: also when it fails, the
    notifications of the transaction afterwards start with those it held
    before, as long as no service effect removes any. *)
Theorem Invoke_never_drops_notifications fuel this ref r this' ref' :
  services_append H →
  Invoke H fuel this ref = Some (r, (this', ref')) →
  smartcontract.Notifications ref `prefix_of` smartcontract.Notifications ref'.
Proof.
  intros Hsvc Hrun.
  pose proof (Invoke_with_notifications H _ _ _ _ _ _
                (appending_Invoke_loop H fuel Hsvc) Hrun) as Hn.
  destruct r; [|done]. destruct Hn as [nested ->]. by eexists.
Qed.

(** X9.  [Invoke] never lowers the step counter, and a counter that was at or
    below the limit is not beyond it afterwards, whatever [Invoke] answers,
    as long as the service effects keep to that. *)
Theorem Invoke_steps_stay_within_limit fuel this ref r this' ref' :
  services_respect H (shared steps_up) →
  Invoke H fuel this ref = Some (r, (this', ref')) →
  (smartcontract.ExecStep ref ≤ smartcontract.ExecStep ref')%Z
  ∧ ((smartcontract.ExecStep ref ≤ smartcontract.VM_STEP_LIMIT)%Z →
     (smartcontract.ExecStep ref' ≤ smartcontract.VM_STEP_LIMIT)%Z).
Proof.
  intros Hsvc.
  by apply (Invoke_respects_shared steps_up); [shared_op..|].
Qed.

(** X10.  Empty code is refused before anything is touched.  For any other code
    [Invoke] pushes a context first and the stack is never emptied again:
    whatever [Invoke] answers, there is a current and an entry context
    afterwards, as long as no service effect empties the stack. *)
Theorem Invoke_leaves_a_context fuel this ref r this' ref' :
  services_respect H (shared context_left) →
  Invoke H fuel this ref = Some (r, (this', ref')) →
  (length (Code this) = 0 →
     r = Err ERR_EXECUTE_CODE ∧ this' = this ∧ ref' = ref)
  ∧ (length (Code this) ≠ 0 →
       smartcontract.Contexts ref' ≠ []
       ∧ is_Some (smartcontract.CurrentContext ref')
       ∧ is_Some (smartcontract.EntryContext ref')).
Proof.
  intros Hsvc Hrun.
  assert (outcome_respects (shared context_left) (shared context_left)
            (Invoke_loop H fuel)) as Hloop.
  { apply (Invoke_loop_respects_shared context_left).
    - intros ref0 c. unfold context_left, smartcontract.PushContext. simpl.
      intros _. by destruct (smartcontract.Contexts ref0).
    - intros ref0. unfold context_left. apply PopContext_nonempty.
    - intros ref0 ns. by unfold context_left.
    - intros ref0 gas. unfold context_left, smartcontract.CheckUseGas.
      by case_decide.
    - intros ref0. unfold context_left, smartcontract.CheckExecStep.
      by case_decide.
    - done. }
  apply Invoke_with_cases in Hrun
    as [(Hcode & -> & -> & ->)|(Hcode & rl & ref2 & Hl & Hrl)].
  { split; [done | lia]. }
  split; [lia|]. intros _.
  apply Hloop in Hl.
  assert (smartcontract.Contexts ref2 ≠ []) as Hne2.
  { assert (shared context_left
              (this, smartcontract.PushContext
                       (context.mkContext (AddressFromVmCode H (Code this))
                                          (Code this)) ref)
              (this', ref2)) as Hq by (by destruct rl).
    apply Hq. simpl. by destruct (smartcontract.Contexts ref). }
  assert (smartcontract.Contexts ref' ≠ []) as Hne.
  { destruct rl as [[]|e]; destruct Hrl as [_ ->]; [|done]. simpl.
    by apply PopContext_nonempty. }
  split; [done|]. split.
  - rewrite CurrentContext_last. by apply last_is_Some.
  - unfold smartcontract.EntryContext.
    destruct (smartcontract.Contexts ref') as [|c cs]; [done|].
    case_decide as Hlen; [simpl in Hlen; lia | by eexists].
Qed.

Lemma contexts_kept_depth_bounded a b c :
  contexts_kept a b → depth_bounded b c → depth_bounded a c.
Proof.
  unfold contexts_kept, depth_bounded. intros Hab Hbc Hne Hlen.
  apply Hbc; by rewrite (Hab Hne).
Qed.

Lemma services_keep_contexts_outcome :
  services_keep_contexts H →
  services_outcome_respect H (shared contexts_kept) (shared depth_bounded).
Proof.
  intros Hsvc name service s err s' Hl Hex.
  specialize (Hsvc _ _ _ _ _ Hl Hex). unfold shared in *.
  destruct err; [unfold depth_bounded | unfold contexts_kept];
    by rewrite Hsvc.
Qed.

Lemma Contexts_PopContext_snoc ref cs c :
  smartcontract.Contexts ref = cs ++ [c] →
  smartcontract.Contexts (smartcontract.PopContext ref)
  = match cs with [] => [c] | _ => cs end.
Proof.
  intros Hcs. unfold smartcontract.PopContext. rewrite Hcs, length_app.
  simpl. case_decide as Hlen; simpl.
  - replace (length cs + 1 - 1) with (length cs) by lia.
    rewrite take_app_length. destruct cs; [simpl in Hlen; lia | done].
  - rewrite Hcs. destruct cs; [done | simpl in Hlen; lia].
Qed.

(** What [Invoke] does to the context stack, given a loop that keeps it
    when it succeeds and keeps it within 1025 contexts when it fails. *)
Lemma Invoke_with_contexts loop this ref r this' ref' :
  outcome_respects (shared contexts_kept) (shared depth_bounded) loop →
  Invoke_with H loop this ref = Some (r, (this', ref')) →
  match r with
  | Ok _ =>
      smartcontract.Contexts ref'
      = match smartcontract.Contexts ref with
        | [] => [context_of H this]
        | _ => smartcontract.Contexts ref
        end
  | Err _ =>
      length (smartcontract.Contexts ref) ≤ smartcontract.MAX_EXECUTE_ENGINE →
      length (smartcontract.Contexts ref') ≤ 1025
  end.
Proof.
  intros Hloop
    [(_ & -> & _ & ->)|(_ & rl & ref2 & Hl & Hrl)]%Invoke_with_cases.
  { unfold smartcontract.MAX_EXECUTE_ENGINE. lia. }
  apply Hloop in Hl. unfold shared in Hl. simpl in Hl.
  destruct rl as [[]|e].
  - destruct Hrl as [Hr ->]. destruct r; [|done]. simpl.
    apply Contexts_PopContext_snoc. apply Hl. simpl.
    by destruct (smartcontract.Contexts ref).
  - destruct Hrl as [-> ->]. unfold smartcontract.MAX_EXECUTE_ENGINE.
    intros Hdepth. apply Hl; simpl.
    + by destruct (smartcontract.Contexts ref).
    + rewrite length_app. simpl. lia.
Qed.

Lemma Invoke_loop_contexts fuel :
  services_keep_contexts H →
  outcome_respects (shared contexts_kept) (shared depth_bounded)
                   (Invoke_loop H fuel).
Proof.
  intros Hsvc.
  apply (respects2_Invoke_loop H contexts_kept depth_bounded).
  - apply contexts_kept_depth_bounded.
  - intros ref gas. unfold contexts_kept, smartcontract.CheckUseGas.
    by case_decide.
  - intros ref. unfold contexts_kept, smartcontract.CheckExecStep.
    by case_decide.
  - by apply services_keep_contexts_outcome.
  - intros loop Hloop s child r child' ref' Hdepth Hinvoke.
    pose proof (Invoke_with_contexts _ _ _ _ _ _ Hloop Hinvoke) as Hc.
    unfold shared. simpl.
    destruct r.
    + intros Hne. rewrite Hc. by destruct (smartcontract.Contexts s.2).
    + intros _ _. apply Hc.
      unfold smartcontract.checkContexts in Hdepth.
      case_decide; [done | lia].
Qed.

(** X11.  A successful [Invoke] leaves the context stack as it found it: caller,
    current and entry context are what they were before the call, however
    many contracts were called in between.  Only the [Invoke] that found
    the stack empty leaves one context, its own, which is the entry
    context.  The service effects are taken not to touch the context
    stack. *)
Theorem Invoke_restores_contexts fuel this ref v this' ref' :
  services_keep_contexts H →
  Invoke H fuel this ref = Some (Ok v, (this', ref')) →
  smartcontract.Contexts ref'
  = match smartcontract.Contexts ref with
    | [] => [context_of H this]
    | _ => smartcontract.Contexts ref
    end
  ∧ (smartcontract.Contexts ref ≠ [] →
       smartcontract.CurrentContext ref' = smartcontract.CurrentContext ref
       ∧ smartcontract.CallingContext ref' = smartcontract.CallingContext ref
       ∧ smartcontract.EntryContext ref' = smartcontract.EntryContext ref).
Proof.
  intros Hsvc Hrun.
  pose proof (Invoke_with_contexts _ _ _ _ _ _
                (Invoke_loop_contexts fuel Hsvc) Hrun) as Hc.
  simpl in Hc. split; [done|]. intros Hne.
  assert (smartcontract.Contexts ref' = smartcontract.Contexts ref) as Heq
    by (rewrite Hc; by destruct (smartcontract.Contexts ref)).
  unfold smartcontract.CurrentContext, smartcontract.CallingContext,
    smartcontract.EntryContext. by rewrite Heq.
Qed.

(** X12.  Entered with at most 1024 contexts on the stack, which is what
    [NewExecuteEngine] lets through, [Invoke] leaves at most 1025,
    whatever it answers and however deep the calls went.  The service
    effects are taken not to touch the context stack. *)
Theorem Invoke_depth_at_most_1025 fuel this ref r this' ref' :
  services_keep_contexts H →
  length (smartcontract.Contexts ref) ≤ smartcontract.MAX_EXECUTE_ENGINE →
  Invoke H fuel this ref = Some (r, (this', ref')) →
  length (smartcontract.Contexts ref') ≤ 1025.
Proof.
  intros Hsvc Hdepth Hrun.
  pose proof (Invoke_with_contexts _ _ _ _ _ _
                (Invoke_loop_contexts fuel Hsvc) Hrun) as Hc.
  destruct r; [|by apply Hc].
  rewrite Hc. unfold smartcontract.MAX_EXECUTE_ENGINE in Hdepth.
  destruct (smartcontract.Contexts ref); simpl in *; lia.
Qed.

End RunInvariants.

Section Preview.

Import neovm neovm_service.

Context (H : Host).

#[local] Instance preview_kept_preorder : PreOrder preview_kept.
Proof.
  split.
  - intros s. unfold preview_kept, steps_up. split_and!; (done || lia).
  - intros a b c (Ha1 & Ha2 & Ha3 & Ha4) (Hb1 & Hb2 & Hb3 & Hb4).
    unfold preview_kept, steps_up.
    split_and!; [congruence | congruence | lia | auto].
Qed.

Lemma preview_within_kept k s s' :
  preview_within k s → preview_kept s s' → preview_within k s'.
Proof.
  intros (Hp1 & Hp2 & Hle & Hlt) (Hk1 & Hk2 & Hup & Hlim).
  unfold preview_within. split_and!; [congruence | congruence | auto | lia].
Qed.

Lemma answers_bind {A B} k (m : M A) (f : A → M B) :
  answers k m → (∀ a, answers k (f a)) → answers k (bind m f).
Proof.
  intros Hm Hf s Hs. destruct (Hm s Hs) as ([a|e] & s1 & Hrun & Hkept).
  - destruct (Hf a s1) as (r & s' & Hrun' & Hkept');
      [by eapply preview_within_kept|].
    exists r, s'. unfold bind. rewrite Hrun. split; [done | by etrans].
  - exists (Err e), s1. unfold bind. by rewrite Hrun.
Qed.

(** What leaves the pre-execution flag of the service and the shared
    [SmartContract] alone, and answers. *)
Lemma answers_same_ref {A} k (m : M A) :
  (∀ s, ∃ r s', m s = Some (r, s')
                ∧ PreExec s'.1 = PreExec s.1 ∧ s'.2 = s.2) →
  answers k m.
Proof.
  intros Hm s _. destruct (Hm s) as (r & s' & Hrun & Hflag & Href).
  exists r, s'. split; [done|].
  unfold preview_kept, steps_up. rewrite Hflag, Href.
  split_and!; (done || lia).
Qed.

Lemma answers_ret {A} k (a : A) : answers k (ret a).
Proof. apply answers_same_ref. intros s. by eexists _, _. Qed.

Lemma answers_raise {A} k e : answers k (@raise A e).
Proof. apply answers_same_ref. intros s. by eexists _, _. Qed.

Lemma answers_engine k : answers k engine.
Proof. apply answers_same_ref. intros s. by eexists _, _. Qed.

Lemma answers_set_engine k e : answers k (set_engine e).
Proof. apply answers_same_ref. intros s. by eexists _, _. Qed.

Lemma answers_on_engine k f : answers k (on_engine f).
Proof.
  apply answers_same_ref. intros s. unfold on_engine.
  destruct (f _) as [[err|] e']; by eexists _, _.
Qed.

Lemma answers_CheckUseGas k gas :
  answers k (on_ref (smartcontract.CheckUseGas gas)).
Proof.
  intros s _. unfold on_ref, smartcontract.CheckUseGas.
  case_decide; eexists _, _; (split; [done|]);
    unfold preview_kept, steps_up; simpl; split_and!; (done || lia).
Qed.

Lemma answers_wrap_err {A} k w (m : M A) :
  answers k m → answers k (wrap_err w m).
Proof.
  intros Hm s Hs. destruct (Hm s Hs) as ([a|e] & s1 & Hrun & Hkept);
    unfold wrap_err; rewrite Hrun; by eexists _, _.
Qed.

Lemma answers_of_result {A} k (r : result A) : answers k (of_result r).
Proof. destruct r; [apply answers_ret | apply answers_raise]. Qed.

Lemma answers_getContract k address : answers k (getContract address).
Proof.
  apply answers_same_ref. intros s. unfold getContract.
  repeat case_match; by eexists _, _.
Qed.

Create HintDb answers discriminated.
Hint Resolve answers_ret answers_raise answers_engine answers_set_engine
  answers_on_engine answers_CheckUseGas answers_of_result
  answers_getContract : answers.

Ltac answers_step :=
  first
    [ assumption
    | apply answers_bind; [|intros ?]
    | apply answers_wrap_err
    | progress eauto with answers
    | case_decide
    | case_match ].

Lemma answers_PopByteArray k : answers k (PopByteArray H).
Proof. unfold PopByteArray. repeat answers_step. Qed.

Lemma answers_on_OpReader {A} k
  (f : vm.ExecutionContext → result A * vm.ExecutionContext) :
  answers k (on_OpReader f).
Proof. unfold on_OpReader. repeat answers_step. Qed.

Hint Resolve answers_PopByteArray answers_on_OpReader : answers.

Lemma answers_Invoke_VERIFY k : answers k (Invoke_VERIFY H).
Proof. unfold Invoke_VERIFY. repeat answers_step. Qed.

Lemma answers_SystemCall k :
  services_respect H preview_kept → answers k (SystemCall H).
Proof.
  intros Hsvc. unfold SystemCall. repeat answers_step.
  intros st _.
  destruct (Execute _ st) as [err st1] eqn:Hex.
  match goal with Hl : ServiceMap H !! _ = Some _ |- _ =>
    pose proof (Hsvc _ _ _ _ _ Hl Hex) as HQ end.
  destruct err; by eexists _, _.
Qed.

Lemma answers_Invoke_APPCALL_address k : answers k (Invoke_APPCALL_address H).
Proof. unfold Invoke_APPCALL_address. repeat answers_step. Qed.

Lemma answers_Invoke_APPCALL k invoke :
  invoke_answers k invoke → answers k (Invoke_APPCALL H invoke).
Proof.
  intros Hinv. pose proof (answers_Invoke_APPCALL_address k).
  unfold Invoke_APPCALL.
  do 3 (apply answers_bind; [by eauto with answers | intros ?]).
  intros s Hs. unfold bind at 1.
  destruct (smartcontract.NewExecuteEngine _ s.2) as [service|e] eqn:Hnew;
    [|by eexists _, _].
  assert (PreExec service = true) as Hflag.
  { unfold smartcontract.NewExecuteEngine in Hnew.
    destruct (smartcontract.checkContexts s.2); [|done].
    simpl in Hnew. injection Hnew as <-. simpl. apply Hs. }
  rewrite bind_engine. unfold bind at 1.
  match goal with |- context [invoke ?child s.2] =>
    destruct (Hinv s child Hs) as (r & child' & ref' & Hi & Hkept); [done|]
  end.
  rewrite Hi.
  destruct r as [[result|]|e].
  - rewrite bind_engine. eexists _, _. split; [done|].
    destruct Hkept as (? & ? & ?). by split_and!.
  - by eexists _, _.
  - by eexists _, _.
Qed.

Lemma answers_Invoke_default k : answers k (Invoke_default H).
Proof. unfold Invoke_default. repeat answers_step. Qed.

Lemma answers_Invoke_gas k : answers k (Invoke_gas H).
Proof. unfold Invoke_gas. repeat answers_step. Qed.

Lemma answers_Invoke_switch k invoke :
  services_respect H preview_kept → invoke_answers k invoke →
  answers k (Invoke_switch H invoke).
Proof.
  intros Hsvc Hinv. unfold Invoke_switch.
  pose proof (answers_Invoke_VERIFY k). pose proof (answers_SystemCall k Hsvc).
  pose proof (answers_Invoke_APPCALL k _ Hinv).
  pose proof (answers_Invoke_default k).
  repeat answers_step.
Qed.

(** A turn of the loop in pre-execution mode with fewer than [S k] steps
    left answers, and when it goes round again fewer than [k] steps are
    left: the turn has counted itself. *)
Lemma Invoke_turn_answers k invoke s :
  services_respect H preview_kept → invoke_answers k invoke →
  preview_within (S k) s →
  ∃ r s', Invoke_turn H invoke s = Some (r, s')
          ∧ preview_kept s s'
          ∧ (is_Ok r = true → preview_within k s').
Proof.
  intros Hsvc Hinv (Hp1 & Hp2 & Hle & Hlt).
  pose proof (answers_Invoke_gas k).
  pose proof (answers_Invoke_switch k _ Hsvc Hinv).
  unfold Invoke_turn. unfold bind at 1. cbn beta iota. rewrite Hp1.
  unfold bind at 1, on_ref.
  unfold smartcontract.CheckExecStep. case_decide as Hlimit.
  { cbn beta iota. eexists _, _. split; [done|]. split; [done|].
    done. }
  cbn beta iota.
  match goal with |- ∃ r s', ?m ?s1 = _ ∧ _ =>
    assert (answers k m) as Hrest by (repeat answers_step);
    assert (preview_within k s1 ∧ preview_kept s s1) as [Hs1 Hkept1]
  end.
  { unfold preview_within, preview_kept, steps_up. simpl.
    split_and!; (done || lia). }
  destruct (Hrest _ Hs1) as (r & s' & Hrun & Hkept).
  exists r, s'. split; [done|]. split; [by etrans|].
  intros _. by eapply preview_within_kept.
Qed.

Lemma Invoke_with_answers k loop :
  answers k loop → invoke_answers k (Invoke_with H loop).
Proof.
  intros Hloop [this ref] child (Hp1 & Hp2 & Hle & Hlt) Hflag.
  set (s := (this, ref)). simpl in Hp1, Hp2, Hle, Hlt.
  unfold Invoke_with. cbn [snd]. case_decide as Hcode.
  { eexists _, _, _. split; [done|]. reflexivity. }
  match goal with |- context [loop ?s1] =>
    destruct (Hloop s1) as (rl & [this2 ref2] & Hrun & Hk1 & Hk2 & Hup)
  end.
  { unfold preview_within. simpl. by split_and!. }
  rewrite Hrun. simpl in Hk1, Hk2, Hup.
  assert (preview_kept s (s.1, ref2)) as Hkept.
  { unfold preview_kept. simpl. by split_and!. }
  destruct rl as [[]|e]; [|by eexists _, _, _].
  assert (preview_kept s
            (s.1, smartcontract.PushNotifications (Notifications this2)
                    (smartcontract.PopContext ref2))) as Hkept'.
  { etrans; [exact Hkept|].
    unfold preview_kept, steps_up, smartcontract.PushNotifications,
      smartcontract.PopContext.
    case_decide; simpl; split_and!; (done || lia). }
  case_decide; by eexists _, _, _.
Qed.

Lemma Invoke_loop_answers fuel :
  services_respect H preview_kept → answers fuel (Invoke_loop H fuel).
Proof.
  intros Hsvc. induction fuel as [|fuel IH].
  { intros s (_ & _ & Hle & Hlt). lia. }
  intros s Hs. simpl.
  destruct (Invoke_turn_answers fuel (Invoke_with H (Invoke_loop H fuel)) s)
    as (r & s1 & Hrun & Hkept & Hnext);
    [done | by apply Invoke_with_answers | done |].
  unfold bind. rewrite Hrun. destruct r as [[]|e].
  - destruct (IH s1) as (r' & s' & Hrun' & Hkept'); [by apply Hnext|].
    exists r', s'. split; [done | by etrans].
  - by eexists _, _.
  - by eexists _, _.
Qed.

(** X13.  In pre-execution mode [Invoke] returns, whatever the script and
    whatever it calls: every turn of the loop of every frame counts a
    step, so a run that starts with [n] steps left below the limit is over
    on any fuel above [n], with a result or with an error (the step
    limit's or another), and has counted no step beyond the limit.
    The service effects are taken to leave the two pre-execution flags as
    they are and not to turn the step counter back. *)
Theorem Invoke_PreExec_returns fuel this ref :
  services_respect H preview_kept →
  PreExec this = true →
  smartcontract.PreExec ref = true →
  (smartcontract.ExecStep ref ≤ smartcontract.VM_STEP_LIMIT)%Z →
  (smartcontract.VM_STEP_LIMIT - smartcontract.ExecStep ref
   < Z.of_nat fuel)%Z →
  ∃ r this' ref',
    Invoke H fuel this ref = Some (r, (this', ref'))
    ∧ (smartcontract.ExecStep ref ≤ smartcontract.ExecStep ref'
       ≤ smartcontract.VM_STEP_LIMIT)%Z.
Proof.
  intros Hsvc Hflag Hmode Hle Hlt.
  destruct (Invoke_with_answers fuel _ (Invoke_loop_answers fuel Hsvc)
              (this, ref) this)
    as (r & this' & ref' & Hrun & _ & _ & Hup & Hlim); [done | done |].
  exists r, this', ref'. split; [done|]. simpl in *. auto.
Qed.

End Preview.

(* ------------------------------------------------------------------ *)
(** ** Further runs of the small host *)

Import ontid_utils.

(** The one service of the small host works on the engine of the calling
    service and on the log of the transaction only. *)
Lemma minivm_services_local :
  services_respect host
    (λ s s', PreExec s'.1 = PreExec s.1
             ∧ ∃ ns, s'.2 = smartcontract.PushNotifications ns s.2).
Proof.
  intros name service [this ref] err s' Hlook Hex.
  change (neovm_service.ServiceMap host) with ServiceMap in Hlook.
  unfold ServiceMap in Hlook.
  apply lookup_singleton_Some in Hlook as [_ <-].
  assert (ref = smartcontract.PushNotifications [] ref) as Hsame.
  { unfold smartcontract.PushNotifications. rewrite app_nil_r.
    by destruct ref. }
  simpl in Hex. unfold RuntimeNotify in Hex.
  repeat case_match; simplify_eq; simpl; (split; [done|]);
    by eexists.
Qed.

Lemma minivm_services_respect_shared
  (Q : relation smartcontract.SmartContract) :
  (∀ ref ns, Q ref (smartcontract.PushNotifications ns ref)) →
  services_respect host (shared Q).
Proof.
  intros HQ name service s err s' Hlook Hex.
  destruct (minivm_services_local _ _ _ _ _ Hlook Hex) as [_ [ns Href]].
  unfold shared. rewrite Href. apply HQ.
Qed.

Lemma minivm_services_keep_contexts : services_keep_contexts host.
Proof.
  intros name service s err s' Hlook Hex.
  destruct (minivm_services_local _ _ _ _ _ Hlook Hex) as [_ [ns Href]].
  unfold shared. by rewrite Href.
Qed.

Lemma minivm_services_preview_kept : services_respect host preview_kept.
Proof.
  intros name service s err s' Hlook Hex.
  destruct (minivm_services_local _ _ _ _ _ Hlook Hex) as [Hflag [ns Href]].
  unfold preview_kept, steps_up. rewrite Href, Hflag. simpl.
  split_and!; (done || lia).
Qed.

(** A sends a1, calls B and sends a2 on a gas of 5: the gas is used up
    inside B. *)
Lemma short_of_gas_Invoke :
  ∃ this' ref',
    Invoke host 20
      (child_service codeA (fresh [codeA; codeB] (Ok []) 5) [])
      (fresh [codeA; codeB] (Ok []) 5)
    = Some (Err ERR_GAS_INSUFFICIENT, (this', ref')).
Proof. eexists _, _. vm_compute. reflexivity. Qed.

Lemma PushContext_accessors_and_PopContext_witness :
  smartcontract.CallingContext (inside_B (Ok []))
  = Some (context.mkContext addressA codeA)
  ∧ smartcontract.PopContext (inside_B (Ok []))
    = smartcontract.PushContext (context.mkContext addressA codeA)
        (fresh [codeA; codeB] (Ok []) 100).
Proof.
  destruct (PushContext_accessors_and_PopContext
              (smartcontract.PushContext (context.mkContext addressA codeA)
                 (fresh [codeA; codeB] (Ok []) 100))
              (context.mkContext addressB codeB))
    as (_ & Hcalling & _ & Hpop & _).
  split.
  - exact Hcalling.
  - apply Hpop. vm_compute. intros Heq. discriminate Heq.
Defined.

Lemma CheckUseGas_charges_exactly_witness :
  smartcontract.CheckUseGas 6
    (smartcontract.CheckUseGas 4 (fresh [] (Ok []) 10)).2
  = (true, (smartcontract.CheckUseGas 10 (fresh [] (Ok []) 10)).2)
  ∧ smartcontract.CheckUseGas 7
      (smartcontract.CheckUseGas 4 (fresh [] (Ok []) 10)).2
    = (false, smartcontract.with_Gas 6 (fresh [] (Ok []) 10)).
Proof.
  split.
  - destruct (CheckUseGas_charges_exactly (fresh [] (Ok []) 10) 4 6)
      as (_ & _ & _ & Hboth & _).
    apply Hboth. vm_compute. intros Hgt. discriminate Hgt.
  - destruct (CheckUseGas_charges_exactly (fresh [] (Ok []) 10) 4 7)
      as (_ & _ & _ & _ & Hsecond).
    apply Hsecond. split; vm_compute; [intros Hgt; discriminate Hgt | done].
Defined.

Lemma CheckExecStep_counts_up_to_limit_witness :
  smartcontract.ExecStep
    (Nat.iter 5 (λ t, (smartcontract.CheckExecStep t).2) (preview 2 [] 0))
  = smartcontract.VM_STEP_LIMIT.
Proof.
  destruct (CheckExecStep_counts_up_to_limit (preview 2 [] 0))
    as (_ & _ & _ & Hiter).
  rewrite (Hiter 5); [reflexivity|].
  vm_compute. intros Hgt. discriminate Hgt.
Defined.

Lemma encodeID_keys_do_not_collide_witness :
  ¬ (OntIDContractAddress ++ [Byte.x09] ++ bytes_of "did:dna:1")
      `prefix_of`
      (OntIDContractAddress ++ [Byte.x0a] ++ bytes_of "did:dna:12")
  ∧ field_key (OntIDContractAddress ++ [Byte.x09] ++ bytes_of "did:dna:1")
              FIELD_PK
    ≠ OntIDContractAddress ++ [Byte.x0a] ++ bytes_of "did:dna:12".
Proof.
  destruct (encodeID_keys_do_not_collide OntIDContractAddress
              (bytes_of "did:dna:1") (bytes_of "did:dna:12")
              (OntIDContractAddress ++ [Byte.x09] ++ bytes_of "did:dna:1")
              (OntIDContractAddress ++ [Byte.x0a] ++ bytes_of "did:dna:12")
              FIELD_PK FIELD_PK eq_refl eq_refl)
    as (Hprefix & _ & _ & Hfield).
  split; [|exact Hfield].
  intros Hp. apply Hprefix in Hp. vm_compute in Hp. discriminate Hp.
Defined.

Lemma decodeID_outcomes_witness :
  common.wf_Address OntIDContractAddress
  ∧ ontid.decodeID OntIDContractAddress OntIDContractAddress
    = Err (Panic "index out of range")
  ∧ ontid.decodeID OntIDContractAddress (OntIDContractAddress ++ [Byte.x00])
    = Ok [].
Proof.
  assert (common.wf_Address OntIDContractAddress) as Hwf by reflexivity.
  split; [exact Hwf|]. split.
  - destruct (decodeID_outcomes OntIDContractAddress Hwf
                OntIDContractAddress) as ([_ Hpanic] & _).
    apply Hpanic. reflexivity.
  - destruct (decodeID_outcomes OntIDContractAddress Hwf
                (OntIDContractAddress ++ [Byte.x00])) as (_ & _ & Hok & _).
    apply (Hok []). exists Byte.x00. split_and!; reflexivity.
Defined.

Lemma checkWitness_accepts_iff_witness :
  checkWitness keys (inside_B (Ok [addressS])) addressA = None
  ∧ checkWitness keys (inside_B (Ok [addressS])) keyK
    = Some (NewErr ("check witness failed, " +:+ hex_EncodeToString keyK)).
Proof.
  split.
  - destruct (checkWitness_accepts_iff keys (inside_B (Ok [addressS]))
                addressA) as [[_ Haccept] _].
    apply Haccept. right. right.
    exists (context.mkContext addressA codeA). split; reflexivity.
  - destruct (checkWitness_accepts_iff keys (inside_B (Ok [addressS]))
                keyK) as [_ Hrefuse].
    apply Hrefuse. vm_compute. intros Heq. discriminate Heq.
Defined.

Lemma Invoke_never_adds_gas_witness :
  services_respect host (shared gas_spent)
  ∧ ∃ r this' ref',
      Invoke host 20
        (child_service codeA (fresh [codeA; codeB] (Ok []) 10000) [])
        (fresh [codeA; codeB] (Ok []) 10000)
      = Some (Ok r, (this', ref'))
      ∧ (smartcontract.Gas ref' ≤ 10000)%N.
Proof.
  assert (services_respect host (shared gas_spent)) as Hsvc.
  { apply minivm_services_respect_shared. intros ref ns.
    unfold gas_spent. simpl. lia. }
  split; [exact Hsvc|].
  destruct S4_Invoke as (r & this' & ref' & Hrun).
  exists r, this', ref'. split; [exact Hrun|].
  exact (Invoke_never_adds_gas host 20 _ _ _ _ _ Hsvc Hrun).
Defined.

(** The same run in a transaction whose log holds an event already: the
    run fails inside B, after A has sent a1. *)
Lemma short_of_gas_held_Invoke :
  ∃ this' ref',
    Invoke host 20
      (child_service codeA (fresh [codeA; codeB] (Ok []) 5) [])
      (smartcontract.PushNotifications [event_of addressS "s0"]
         (fresh [codeA; codeB] (Ok []) 5))
    = Some (Err ERR_GAS_INSUFFICIENT, (this', ref'))
    ∧ smartcontract.Notifications ref'
      = [event_of addressS "s0"; event_of addressA "a1"].
Proof. eexists _, _. split; vm_compute; reflexivity. Qed.

Lemma Invoke_never_drops_notifications_witness :
  services_append host
  ∧ ∃ this' ref',
      Invoke host 20
        (child_service codeA (fresh [codeA; codeB] (Ok []) 5) [])
        (smartcontract.PushNotifications [event_of addressS "s0"]
           (fresh [codeA; codeB] (Ok []) 5))
      = Some (Err ERR_GAS_INSUFFICIENT, (this', ref'))
      ∧ [event_of addressS "s0"]
          `prefix_of` smartcontract.Notifications ref'
      ∧ smartcontract.Notifications ref'
        = [event_of addressS "s0"; event_of addressA "a1"].
Proof.
  split; [exact minivm_services_append|].
  destruct short_of_gas_held_Invoke as (this' & ref' & Hrun & Hlog).
  exists this', ref'. split; [exact Hrun|]. split; [|exact Hlog].
  exact (Invoke_never_drops_notifications host 20 _ _ _ _ _
           minivm_services_append Hrun).
Defined.

(** A, pre-executed four steps below the limit: the fifth turn, inside
    B, is refused, and the counter stands at the limit. *)
Lemma out_of_steps_Invoke :
  ∃ this' ref',
    Invoke host 20
      (child_service codeA (preview 4 [codeA; codeB] 10000) [])
      (preview 4 [codeA; codeB] 10000)
    = Some (Err VM_EXEC_STEP_EXCEED, (this', ref'))
    ∧ smartcontract.ExecStep ref' = smartcontract.VM_STEP_LIMIT.
Proof. eexists _, _. split; vm_compute; reflexivity. Qed.

Lemma Invoke_steps_stay_within_limit_witness :
  services_respect host (shared steps_up)
  ∧ ∃ this' ref',
      Invoke host 20
        (child_service codeA (preview 4 [codeA; codeB] 10000) [])
        (preview 4 [codeA; codeB] 10000)
      = Some (Err VM_EXEC_STEP_EXCEED, (this', ref'))
      ∧ (smartcontract.VM_STEP_LIMIT - 4 ≤ smartcontract.ExecStep ref'
         ≤ smartcontract.VM_STEP_LIMIT)%Z
      ∧ smartcontract.ExecStep ref' = smartcontract.VM_STEP_LIMIT.
Proof.
  assert (services_respect host (shared steps_up)) as Hsvc.
  { apply minivm_services_respect_shared. intros ref ns.
    unfold steps_up. simpl. lia. }
  split; [exact Hsvc|].
  destruct out_of_steps_Invoke as (this' & ref' & Hrun & Hsteps).
  exists this', ref'. split; [exact Hrun|]. split; [|exact Hsteps].
  destruct (Invoke_steps_stay_within_limit host 20 _ _ _ _ _ Hsvc Hrun)
    as [Hup Hlimit].
  split; [exact Hup|]. apply Hlimit.
  vm_compute. intros Hgt. discriminate Hgt.
Defined.

Lemma Invoke_leaves_a_context_witness :
  services_respect host (shared context_left)
  ∧ ∃ this' ref',
      Invoke host 20
        (child_service codeA (fresh [codeA; codeB] (Ok []) 5) [])
        (fresh [codeA; codeB] (Ok []) 5)
      = Some (Err ERR_GAS_INSUFFICIENT, (this', ref'))
      ∧ is_Some (smartcontract.EntryContext ref').
Proof.
  assert (services_respect host (shared context_left)) as Hsvc.
  { apply minivm_services_respect_shared. intros ref ns Hne. exact Hne. }
  split; [exact Hsvc|].
  destruct short_of_gas_Invoke as (this' & ref' & Hrun).
  exists this', ref'. split; [exact Hrun|].
  destruct (Invoke_leaves_a_context host 20 _ _ _ _ _ Hsvc Hrun)
    as [_ Hcode].
  apply Hcode. vm_compute. intros Heq. discriminate Heq.
Defined.

Lemma Invoke_restores_contexts_witness :
  services_keep_contexts host
  ∧ ∃ r this' ref',
      Invoke host 20
        (child_service codeA (fresh [codeA; codeB] (Ok []) 10000) [])
        (fresh [codeA; codeB] (Ok []) 10000)
      = Some (Ok r, (this', ref'))
      ∧ smartcontract.Contexts ref' = [context.mkContext addressA codeA].
Proof.
  split; [exact minivm_services_keep_contexts|].
  destruct S4_Invoke as (r & this' & ref' & Hrun).
  exists r, this', ref'. split; [exact Hrun|].
  exact (proj1 (Invoke_restores_contexts host 20 _ _ _ _ _
                  minivm_services_keep_contexts Hrun)).
Defined.

Lemma Invoke_depth_at_most_1025_witness :
  services_keep_contexts host
  ∧ ∃ this' ref',
      Invoke host 20
        (child_service codeA (fresh [codeA; codeB] (Ok []) 5) [])
        (fresh [codeA; codeB] (Ok []) 5)
      = Some (Err ERR_GAS_INSUFFICIENT, (this', ref'))
      ∧ length (smartcontract.Contexts ref') ≤ 1025.
Proof.
  split; [exact minivm_services_keep_contexts|].
  destruct short_of_gas_Invoke as (this' & ref' & Hrun).
  exists this', ref'. split; [exact Hrun|].
  refine (Invoke_depth_at_most_1025 host 20 _ _ _ _ _
            minivm_services_keep_contexts _ Hrun).
  unfold smartcontract.MAX_EXECUTE_ENGINE. simpl. lia.
Defined.

(** The contract that calls itself for ever, pre-executed five steps
    below the limit. *)
Lemma Invoke_PreExec_returns_witness :
  services_respect host preview_kept
  ∧ ∃ r this' ref',
      Invoke host 6 (child_service codeE (preview 5 [codeR] 100000) [])
             (preview 5 [codeR] 100000)
      = Some (r, (this', ref'))
      ∧ (smartcontract.VM_STEP_LIMIT - 5 ≤ smartcontract.ExecStep ref'
         ≤ smartcontract.VM_STEP_LIMIT)%Z.
Proof.
  split; [exact minivm_services_preview_kept|].
  apply (Invoke_PreExec_returns host 6
           (child_service codeE (preview 5 [codeR] 100000) [])
           (preview 5 [codeR] 100000) minivm_services_preview_kept).
  - reflexivity.
  - reflexivity.
  - vm_compute. intros Hgt. discriminate Hgt.
  - vm_compute. reflexivity.
Defined.
